(** * Rover-Unity mission bridge: ros_bridge.py and test_mission_server.py

    A shallow embedding of the TCP-to-action bridge
    ([Assets/Control Interface App/SatelliteTest/ros_bridge.py]) and of the
    diagnostic echo server ([test_mission_server.py]) of the same directory,
    with the properties of the bridge stated and proved over it.

    Layout:
    - [Py]: the Python values the bridge handles (what [json.loads] returns),
      exceptions, and the built-ins the source applies to them
      ([dict.get], truthiness, [len], iteration, [str.strip]);
    - [Utf8]: [bytes.decode('utf-8')];
    - [Env]: the environment the bridge talks to (sockets, logger, the rclpy
      action client) as an explicit world state with a trace of events;
    - [Bridge]: [ROSBridge.send_mission] and [ROSBridge.run];
    - [Diag]: [start_server] of the diagnostic variant;
    - [Json]: a reference decoder for a fragment of JSON, used to run the
      model on concrete wire payloads. *)

From Stdlib Require Import ZArith NArith List String Ascii Strings.Byte.
From Stdlib Require Import Floats.PrimFloat Numbers.Cyclic.Int63.Uint63.
From stdpp Require Import gmap strings list.

Set Warnings "-register-all".

(** A Python [str] is a sequence of code points. *)
Abbreviation str := (list N).

Definition str_of (s : string) : str :=
  map N_of_ascii (list_ascii_of_string s).

(** Python [bytes]. *)
Abbreviation bytes := (list Byte.byte).

Definition bytes_of (s : string) : bytes := list_byte_of_string s.

(* ================================================================= *)
(** ** Python values and built-ins *)

Module Py.

(** What [json.loads] can return: [None], [bool], [int], [float], [str],
    [list] and [dict] (keys are always [str]). *)
Inductive value : Type :=
| VNone
| VBool (b : bool)
| VInt (z : Z)
| VFloat (f : float)
| VStr (s : str)
| VList (l : list value)
| VDict (m : gmap str value).

Definition type_name (v : value) : string :=
  match v with
  | VNone => "NoneType"
  | VBool _ => "bool"
  | VInt _ => "int"
  | VFloat _ => "float"
  | VStr _ => "str"
  | VList _ => "list"
  | VDict _ => "dict"
  end.

(** Exception classes that occur in the two programs.  [KeyboardInterrupt]
    and [SystemExit] derive from [BaseException] only; all others derive
    from [Exception]. *)
Inductive exn_class :=
| AttributeError
| TypeError
| UnicodeDecodeError
| JSONDecodeError
| ConnectionResetError
| OSError
| RuntimeError
| KeyboardInterrupt
| SystemExit.

Record exn := Exn { exn_cls : exn_class; exn_msg : string }.

(** [isinstance(e, Exception)]: what [except Exception] catches. *)
Definition is_Exception (e : exn) : bool :=
  match exn_cls e with
  | KeyboardInterrupt | SystemExit => false
  | _ => true
  end.

(** [isinstance(e, json.JSONDecodeError)]. *)
Definition is_JSONDecodeError (e : exn) : bool :=
  match exn_cls e with
  | JSONDecodeError => true
  | _ => false
  end.

(** Result of an expression that may raise. *)
Inductive res (A : Type) : Type :=
| Ok (a : A)
| Throw (e : exn).
Arguments Ok {A} a.
Arguments Throw {A} e.

Definition res_bind {A B} (r : res A) (k : A -> res B) : res B :=
  match r with
  | Ok a => k a
  | Throw e => Throw e
  end.

Notation "'let?' x := e 'in' k" := (res_bind e (fun x => k))
  (at level 10, x name, e at level 100, k at level 200).

Definition no_attribute (v : value) (attr : string) : exn :=
  Exn AttributeError
      ("'" ++ type_name v ++ "' object has no attribute '" ++ attr ++ "'").

(** [obj.get(key, dflt)]: only [dict] has a [get] attribute. *)
Definition py_get (obj : value) (key : str) (dflt : value) : res value :=
  match obj with
  | VDict m => Ok (default dflt (m !! key))
  | _ => Throw (no_attribute obj "get")
  end.

(** Truth value of an object, as [not] and [if] test it. *)
Definition truthy (v : value) : bool :=
  match v with
  | VNone => false
  | VBool b => b
  | VInt z => negb (z =? 0)%Z
  | VFloat f => negb (PrimFloat.eqb f 0%float)
  | VStr s => negb (Nat.eqb (length s) 0)
  | VList l => negb (Nat.eqb (length l) 0)
  | VDict m => negb (Nat.eqb (size m) 0)
  end.

(** [len(v)]. *)
Definition py_len (v : value) : res nat :=
  match v with
  | VStr s => Ok (length s)
  | VList l => Ok (length l)
  | VDict m => Ok (size m)
  | _ => Throw (Exn TypeError
                    ("object of type '" ++ type_name v ++ "' has no len()"))
  end.

(** The elements [for x in v] visits: the items of a list, the
    one-character strings of a [str], the keys of a [dict]. *)
Definition py_iter (v : value) : res (list value) :=
  match v with
  | VList l => Ok l
  | VStr s => Ok (map (fun c => VStr [c]) s)
  | VDict m => Ok (map (fun kv => VStr (fst kv)) (map_to_list m))
  | _ => Throw (Exn TypeError
                    ("'" ++ type_name v ++ "' object is not iterable"))
  end.

(** [str.isspace] on one code point: the Unicode white space that
    [str.strip()] removes. *)
Definition is_space (c : N) : bool :=
  ((9 <=? c) && (c <=? 13) || (28 <=? c) && (c <=? 32)
   || (c =? 133) || (c =? 160) || (c =? 5760)
   || (8192 <=? c) && (c <=? 8202)
   || (c =? 8232) || (c =? 8233) || (c =? 8239) || (c =? 8287)
   || (c =? 12288))%N.

Fixpoint lstrip (s : str) : str :=
  match s with
  | c :: s' => if is_space c then lstrip s' else s
  | [] => []
  end.

(** [s.strip()]. *)
Definition strip (s : str) : str := rev (lstrip (rev (lstrip s))).

(** ["\n" in s]. *)
Definition has_newline (s : str) : bool := existsb (N.eqb 10) s.

End Py.
Export Py.

(* ================================================================= *)
(** ** [bytes.decode('utf-8')] *)

Module Utf8.

Definition continuation (b : N) : bool := ((128 <=? b) && (b <=? 191))%N.

(** Strict UTF-8, as CPython decodes it: shortest form only, no
    surrogates, nothing above U+10FFFF.  [None] stands for
    [UnicodeDecodeError]. *)
Fixpoint decode_N (bs : list N) : option str :=
  match bs with
  | [] => Some []
  | b0 :: r0 =>
    if (b0 <? 128)%N then cons b0 <$> decode_N r0
    else if ((194 <=? b0) && (b0 <=? 223))%N then
      match r0 with
      | b1 :: r1 =>
        if continuation b1
        then cons ((b0 - 192) * 64 + (b1 - 128))%N <$> decode_N r1
        else None
      | _ => None
      end
    else if ((224 <=? b0) && (b0 <=? 239))%N then
      match r0 with
      | b1 :: b2 :: r2 =>
        if (continuation b1 && continuation b2
            && (negb (b0 =? 224) || (160 <=? b1))
            && (negb (b0 =? 237) || (b1 <=? 159)))%N
        then cons ((b0 - 224) * 4096 + (b1 - 128) * 64 + (b2 - 128))%N
               <$> decode_N r2
        else None
      | _ => None
      end
    else if ((240 <=? b0) && (b0 <=? 244))%N then
      match r0 with
      | b1 :: b2 :: b3 :: r3 =>
        if (continuation b1 && continuation b2 && continuation b3
            && (negb (b0 =? 240) || (144 <=? b1))
            && (negb (b0 =? 244) || (b1 <=? 143)))%N
        then cons ((b0 - 240) * 262144 + (b1 - 128) * 4096
                   + (b2 - 128) * 64 + (b3 - 128))%N
               <$> decode_N r3
        else None
      | _ => None
      end
    else None
  end.

Definition decode_error : exn :=
  Exn UnicodeDecodeError "'utf-8' codec can't decode bytes".

(** [data.decode('utf-8')]. *)
Definition decode (data : bytes) : res str :=
  match decode_N (map Byte.to_N data) with
  | Some s => Ok s
  | None => Throw decode_error
  end.

End Utf8.

(* ================================================================= *)
(** ** The action type *)

(** Modelled from the spec: the action type
    [nav_autonomy_interface.action.Mission] is imported by ros_bridge.py but
    its declaration is not among the sources.  The spec's data model gives
    the goal message: [search_object], [search_pattern] and an ordered
    sequence of waypoints, each with [latitude] and [longitude]; "mirrors
    MissionRequest field-for-field".  Fields hold whatever Python value the
    bridge assigns; a freshly constructed message has zero fields. *)
Module Mission.

Record NavWaypoints := MkNavWaypoints {
  latitude : value;
  longitude : value }.

Record Goal := MkGoal {
  search_object : value;
  search_pattern : value;
  nav_waypoints : list NavWaypoints }.

(** [Mission.Goal.NavWaypoints()] and [Mission.Goal()]. *)
Definition NavWaypoints_new : NavWaypoints :=
  MkNavWaypoints (VFloat 0%float) (VFloat 0%float).
Definition Goal_new : Goal := MkGoal (VInt 0) (VInt 0) [].

Definition set_latitude (w : NavWaypoints) (v : value) : NavWaypoints :=
  MkNavWaypoints v (longitude w).
Definition set_longitude (w : NavWaypoints) (v : value) : NavWaypoints :=
  MkNavWaypoints (latitude w) v.
Definition set_search_object (g : Goal) (v : value) : Goal :=
  MkGoal v (search_pattern g) (nav_waypoints g).
Definition set_search_pattern (g : Goal) (v : value) : Goal :=
  MkGoal (search_object g) v (nav_waypoints g).
Definition set_nav_waypoints (g : Goal) (l : list NavWaypoints) : Goal :=
  MkGoal (search_object g) (search_pattern g) l.
(** [goal_msg.nav_waypoints.append(waypoint)]. *)
Definition append_waypoint (g : Goal) (w : NavWaypoints) : Goal :=
  set_nav_waypoints g (nav_waypoints g ++ [w]).

End Mission.
Export Mission.

(* ================================================================= *)
(** ** The environment: sockets, logger, action client *)

Module Env.

Record addr := Addr { host : string; port : N }.

(** What one call of [conn.recv(4096)] gives: a chunk of bytes (the empty
    chunk is end-of-stream) or an exception such as
    [ConnectionResetError]. *)
Inductive recv_result :=
| Chunk (chunk : bytes)
| RecvError (e : exn).

(** An incoming connection: the peer address and what the successive
    [recv] calls on it return.  Once the list is used up the peer has
    closed and [recv] returns [b''].  Every connection is thus one whose
    peer ends by closing or whose [recv] ends by raising.  A peer that
    stays connected without sending, on which [recv], having no timeout,
    blocks with the socket open, is not among them; where a statement
    below speaks of a stalled loop, it leaves the socket being handled
    aside. *)
Record connection := Connection {
  peer : addr;
  stream : list recv_result }.

(** What the top of the accept loop meets, in order. *)
Inductive arrival :=
| Connect (c : connection)        (* [accept()] returns this connection *)
| NotOk                           (* [rclpy.ok()] is [False] *)
| AcceptRaises (e : exn).         (* [accept()] raises, e.g. on Ctrl-C *)

(** Result of a call into the action client. *)
Inductive call (A : Type) : Type :=
| Returns (a : A)
| Raises (e : exn)
| Blocks.
Arguments Returns {A} a.
Arguments Raises {A} e.
Arguments Blocks {A}.

(** What the executor processes, one item per [spin_once], while the
    bridge spins on a future. *)
Inductive spin_event :=
| Idle                              (* unrelated work *)
| GoalResponse (accepted : bool)    (* the server accepts or rejects *)
| GoalResponseFailed (e : exn)      (* the send-goal future gets an exception *)
| GoalFinished (outcome : value)    (* the server completes the goal *)
| SpinRaises (e : exn).             (* the spin itself raises *)

(** How the action subsystem behaves for one dispatch. *)
Record action_script := ActionScript {
  on_wait_for_server : call unit;
  on_send_goal_async : call unit;
  on_spin : list spin_event }.

(** Lifecycle of a submitted goal as the client has observed it. *)
Inductive goal_status :=
| GPending
| GAccepted
| GRejected
| GResponseFailed (e : exn)
| GFinished (outcome : value).

Record goal_record := GoalRecord {
  gr_goal : Goal;
  gr_status : goal_status;
  gr_pending : list spin_event }.

(** [ClientGoalHandle]: what the send-goal future resolves to. *)
Record ClientGoalHandle := GoalHandle {
  gh_future : nat;
  gh_accepted : bool }.

Inductive level := INFO | WARN | ERROR.

(** Pieces of an f-string: literal text and interpolated objects. *)
Inductive frag :=
| FText (s : string)
| FValue (v : value)
| FStr (s : str)
| FExn (e : exn)
| FAddr (a : addr)
| FResult (r : option ClientGoalHandle).

Inductive event :=
| EAccept (fd : nat) (a : addr)
| ERecv (fd : nat) (r : recv_result)
| EClose (fd : nat)
| ELog (lvl : level) (msg : list frag)
| EPrint (msg : list frag)
| EWaitForServer
| ESendGoal (g : Goal)
| ESpin (future : nat)
| EFutureResult (future : nat)
| EDestroyNode
| EShutdown.

Record world := World {
  trace : list event;                  (* everything done so far, oldest first *)
  next_fd : nat;                       (* sockets accepted so far *)
  action_server : list action_script;  (* behaviour for the dispatches to come *)
  goals : list goal_record }.          (* goals submitted so far *)

Definition initial (scripts : list action_script) : world :=
  World [] 0 scripts [].

(** Outcome of a statement: it returns, raises, or never returns. *)
Inductive outcome (A : Type) : Type :=
| Ret (a : A)
| Raise (e : exn)
| Hang.
Arguments Ret {A} a.
Arguments Raise {A} e.
Arguments Hang {A}.

Definition M (A : Type) : Type := world -> outcome A * world.

Definition ret {A} (a : A) : M A := fun w => (Ret a, w).
Definition raise {A} (e : exn) : M A := fun w => (Raise e, w).
Definition hang {A} : M A := fun w => (Hang, w).

Definition bind {A B} (m : M A) (k : A -> M B) : M B :=
  fun w =>
    match m w with
    | (Ret a, w') => k a w'
    | (Raise e, w') => (Raise e, w')
    | (Hang, w') => (Hang, w')
    end.

Notation "'let*' x := e 'in' k" := (bind e (fun x => k))
  (at level 10, x name, e at level 100, k at level 200).
Notation "e ';;;' k" := (bind e (fun _ => k))
  (at level 100, k at level 200, right associativity).

Definition lift {A} (r : res A) : M A :=
  match r with
  | Ok a => ret a
  | Throw e => raise e
  end.

Definition of_call {A} (c : call A) : M A :=
  match c with
  | Returns a => ret a
  | Raises e => raise e
  | Blocks => hang
  end.

Definition emit (ev : event) : M unit :=
  fun w => (Ret tt, World (trace w ++ [ev]) (next_fd w) (action_server w) (goals w)).

(** [try: body except <catches>: handler]. *)
Definition try_except {A} (body : M A) (catches : exn -> bool)
    (handler : exn -> M A) : M A :=
  fun w =>
    match body w with
    | (Raise e, w') => if catches e then handler e w' else (Raise e, w')
    | r => r
    end.

(** [self.get_logger().info/warn/error] and [print]. *)
Definition log (lvl : level) (msg : list frag) : M unit := emit (ELog lvl msg).
Definition print (msg : list frag) : M unit := emit (EPrint msg).

(** [sock.accept()] for a connection that arrives: a new socket. *)
Definition accept (c : connection) : M nat :=
  fun w =>
    (Ret (next_fd w),
     World (trace w ++ [EAccept (next_fd w) (peer c)]) (S (next_fd w))
           (action_server w) (goals w)).

(** [with conn: body]: the socket is closed when the body is left, by
    return or by exception. *)
Definition with_conn {A} (fd : nat) (body : M A) : M A :=
  fun w =>
    match body w with
    | (Hang, w') => (Hang, w')
    | (o, w') => (o, snd (emit (EClose fd) w'))
    end.

(** [self.action_client.wait_for_server()]: no timeout.  With no script
    left the server never comes up. *)
Definition wait_for_server : M unit :=
  emit EWaitForServer ;;;
  fun w =>
    match action_server w with
    | [] => (Hang, w)
    | s :: rest =>
      match on_wait_for_server s with
      | Returns _ => (Ret tt, w)
      | Raises e => (Raise e, World (trace w) (next_fd w) rest (goals w))
      | Blocks => (Hang, w)
      end
    end.

(** [self.action_client.send_goal_async(goal_msg)]: the future is
    identified by the position of the goal among the submitted ones.  The
    script of this dispatch is used up by the call. *)
Definition send_goal_async (goal_msg : Goal) : M nat :=
  emit (ESendGoal goal_msg) ;;;
  fun w =>
    match action_server w with
    | [] => (Raise (Exn RuntimeError "action server not available"), w)
    | s :: rest =>
      match on_send_goal_async s with
      | Returns _ =>
        (Ret (length (goals w)),
         World (trace w) (next_fd w) rest
               (goals w ++ [GoalRecord goal_msg GPending (on_spin s)]))
      | Raises e => (Raise e, World (trace w) (next_fd w) rest (goals w))
      | Blocks => (Hang, w)
      end
    end.

(** One executor step seen from a goal: the response settles a pending
    goal, the completion finishes an accepted one. *)
Definition spin_once (ev : spin_event) (st : goal_status) : goal_status :=
  match ev, st with
  | GoalResponse true, GPending => GAccepted
  | GoalResponse false, GPending => GRejected
  | GoalResponseFailed e, GPending => GResponseFailed e
  | GoalFinished o, GAccepted => GFinished o
  | _, _ => st
  end.

(** [future.done()] for the send-goal future. *)
Definition future_done (st : goal_status) : bool :=
  match st with
  | GPending => false
  | _ => true
  end.

(** The loop of [spin_until_future_complete]: spin once at a time while
    the future is not done. *)
Fixpoint spin_until (evs : list spin_event) (st : goal_status)
    : outcome unit * goal_status * list spin_event :=
  if future_done st then (Ret tt, st, evs)
  else
    match evs with
    | [] => (Hang, st, [])
    | SpinRaises e :: rest => (Raise e, st, rest)
    | ev :: rest => spin_until rest (spin_once ev st)
    end.

(** [rclpy.spin_until_future_complete(self, future)]. *)
Definition spin_until_future_complete (future : nat) : M unit :=
  emit (ESpin future) ;;;
  fun w =>
    match goals w !! future with
    | None => (Raise (Exn RuntimeError "unknown future"), w)
    | Some g =>
      let '(o, st, rest) := spin_until (gr_pending g) (gr_status g) in
      (o, World (trace w) (next_fd w) (action_server w)
                (<[future := GoalRecord (gr_goal g) st rest]> (goals w)))
    end.

(** [future.result()]: the goal handle once the response is in, the
    exception if the request failed, [None] while pending. *)
Definition future_result (future : nat) : M (option ClientGoalHandle) :=
  emit (EFutureResult future) ;;;
  fun w =>
    match gr_status <$> goals w !! future with
    | Some GAccepted | Some (GFinished _) => (Ret (Some (GoalHandle future true)), w)
    | Some GRejected => (Ret (Some (GoalHandle future false)), w)
    | Some (GResponseFailed e) => (Raise e, w)
    | Some GPending | None => (Ret None, w)
    end.

End Env.
Export Env.

(* ================================================================= *)
(** ** ros_bridge.py *)

Module Bridge.

Definition k_nav_waypoints : str := str_of "nav_waypoints".
Definition k_search_object : str := str_of "search_object".
Definition k_search_pattern : str := str_of "search_pattern".
Definition k_latitude : str := str_of "latitude".
Definition k_longitude : str := str_of "longitude".

(** Line 43: [not waypoints or len(waypoints) == 0]; [or] evaluates
    [len] only when the left operand is false. *)
Definition no_waypoints (waypoints : value) : res bool :=
  if negb (truthy waypoints) then Ok true
  else let? n := py_len waypoints in Ok (Nat.eqb n 0).

(** Lines 50-54: the body of [for wp in waypoints], over the items still
    to visit. *)
Fixpoint append_waypoints (items : list value) (goal_msg : Goal) : res Goal :=
  match items with
  | [] => Ok goal_msg
  | wp :: rest =>
    let waypoint := NavWaypoints_new in
    let? lat := py_get wp k_latitude (VFloat 0%float) in
    let waypoint := set_latitude waypoint lat in
    let? lon := py_get wp k_longitude (VFloat 0%float) in
    let waypoint := set_longitude waypoint lon in
    append_waypoints rest (append_waypoint goal_msg waypoint)
  end.

(** Lines 46-54: the goal message built from the mission. *)
Definition build_goal (mission waypoints : value) : res Goal :=
  let goal_msg := Goal_new in
  let? so := py_get mission k_search_object (VInt 0) in
  let goal_msg := set_search_object goal_msg so in
  let? sp := py_get mission k_search_pattern (VInt 0) in
  let goal_msg := set_search_pattern goal_msg sp in
  let goal_msg := set_nav_waypoints goal_msg [] in
  let? items := py_iter waypoints in
  append_waypoints items goal_msg.

Definition msg_no_waypoints : list frag :=
  [FText "Received mission with no waypoints. Not sending to rover."].
Definition msg_sending : list frag :=
  [FText "Sending mission goal to rover..."].
Definition msg_sent (result : option ClientGoalHandle) : list frag :=
  [FText "Mission goal sent. Result: "; FResult result].

(** Lines 55-60: dispatch of a built goal. *)
Definition dispatch (goal_msg : Goal) : M unit :=
  log INFO msg_sending ;;;
  wait_for_server ;;;
  let* future := send_goal_async goal_msg in
  spin_until_future_complete future ;;;
  let* result := future_result future in
  log INFO (msg_sent result).

(** [ROSBridge.send_mission]. *)
Definition send_mission (mission : value) : M unit :=
  let* waypoints := lift (py_get mission k_nav_waypoints (VList [])) in
  let* none := lift (no_waypoints waypoints) in
  if none then log WARN msg_no_waypoints
  else
    let* goal_msg := lift (build_goal mission waypoints) in
    dispatch goal_msg.

(** Lines 28-32: accumulate until [recv] returns no bytes. *)
Fixpoint recv_all (fd : nat) (stream : list recv_result) (data : bytes)
    : M bytes :=
  match stream with
  | [] => emit (ERecv fd (Chunk [])) ;;; ret data
  | Chunk chunk :: rest =>
    emit (ERecv fd (Chunk chunk)) ;;;
    match chunk with
    | [] => ret data
    | _ => recv_all fd rest (data ++ chunk)
    end
  | RecvError e :: _ => emit (ERecv fd (RecvError e)) ;;; raise e
  end.

Section WithJson.

(** [json.loads] on a [str]. *)
Variable json_loads : str -> res value.

(** Line 34: [json.loads(data.decode('utf-8'))]. *)
Definition loads_utf8 (data : bytes) : res value :=
  let? text := Utf8.decode data in json_loads text.

Definition msg_connection (a : addr) : list frag :=
  [FText "Connection from "; FAddr a].
Definition msg_received (mission : value) : list frag :=
  [FText "Received mission: "; FValue mission].
Definition msg_failed (e : exn) : list frag :=
  [FText "Failed to parse mission: "; FExn e].

(** Lines 34-36: the body of the [try]. *)
Definition translate (data : bytes) : M unit :=
  let* mission := lift (loads_utf8 data) in
  log INFO (msg_received mission) ;;;
  send_mission mission.

(** Lines 33-38: [try: ... except Exception as e: ...]. *)
Definition process (data : bytes) : M unit :=
  try_except (translate data) is_Exception
    (fun e => log ERROR (msg_failed e)).

(** Lines 24-38: one turn of the loop body.  The read loop is outside
    the [try]. *)
Definition handle_connection (c : connection) : M unit :=
  let* conn := accept c in
  with_conn conn (
    log INFO (msg_connection (peer c)) ;;;
    let* data := recv_all conn (stream c) [] in
    process data).

(** [ROSBridge.run]: the loop over what arrives.  With nothing left to
    arrive, [accept()] blocks for ever. *)
Fixpoint run (arrivals : list arrival) : M unit :=
  match arrivals with
  | [] => hang
  | NotOk :: _ => ret tt
  | AcceptRaises e :: _ => raise e
  | Connect c :: rest => handle_connection c ;;; run rest
  end.

(** [main], after [rclpy.init()] and the construction of the node:
    [KeyboardInterrupt] ends the process quietly, any other exception
    leaves [main] after the [finally] clause. *)
Definition main (arrivals : list arrival) : M unit :=
  fun w =>
    let cleanup := emit EDestroyNode ;;; emit EShutdown in
    match run arrivals w with
    | (Ret _, w') => cleanup w'
    | (Raise e, w') =>
      match exn_cls e with
      | KeyboardInterrupt => cleanup w'
      | _ => (cleanup ;;; raise e) w'
      end
    | (Hang, w') => (Hang, w')
    end.

(** [ROSBridge.__init__] (lines 10-19), with what [bind] and [listen] do
    as parameters: the socket is bound to 0.0.0.0:5005 and listens; the
    last statement logs.  Nothing in the constructor catches an
    exception. *)
Definition tcp_port : Z := 5005.
Definition tcp_host : str := str_of "0.0.0.0".
Definition msg_listening : list frag :=
  [FText "ROSBridge listening on "; FStr tcp_host; FText ":";
   FValue (VInt tcp_port)].

Definition ROSBridge_init (bind listen : call unit) : M unit :=
  of_call bind ;;;
  of_call listen ;;;
  log INFO msg_listening.

(** [main] as a whole (lines 63-72): [rclpy.init()] and the construction
    of the node come before the [try]. *)
Definition program (bind listen : call unit) (arrivals : list arrival)
    : M unit :=
  ROSBridge_init bind listen ;;;
  main arrivals.

End WithJson.

End Bridge.

(* ================================================================= *)
(** ** test_mission_server.py *)

Module Diag.

(** Lines 31-37: accumulate decoded text until [recv] returns no bytes or
    the text so far contains a newline. *)
Fixpoint recv_line (fd : nat) (stream : list recv_result) (data_str : str)
    : M str :=
  match stream with
  | [] => emit (ERecv fd (Chunk [])) ;;; ret data_str
  | Chunk raw :: rest =>
    emit (ERecv fd (Chunk raw)) ;;;
    let* chunk := lift (Utf8.decode raw) in
    match chunk with
    | [] => ret data_str
    | _ =>
      let data_str := data_str ++ chunk in
      if has_newline data_str then ret data_str
      else recv_line fd rest data_str
    end
  | RecvError e :: _ => emit (ERecv fd (RecvError e)) ;;; raise e
  end.

(** What [s.accept()] meets under [s.settimeout(1.0)], in order. *)
Inductive timed_arrival :=
| TConnect (c : connection)       (* a connection arrives within the second *)
| TTimeout                        (* [socket.timeout] *)
| TAcceptRaises (e : exn).        (* any other exception, e.g. on Ctrl-C *)

Definition HOST : str := str_of "127.0.0.1".
Definition PORT : Z := 5005.

Definition msg_bound : list frag :=
  [FText "Successfully bound to "; FStr HOST; FText ":"; FValue (VInt PORT)].
Definition msg_bind_failed (e : exn) : list frag :=
  [FText "Failed to bind: "; FExn e].
Definition msg_live : list frag :=
  [FText "Server live at "; FStr HOST; FText ":"; FValue (VInt PORT);
   FText ". Press Ctrl+C to stop."].
Definition msg_stopping : list frag :=
  [FStr [10%N]; FText "[STOPPING] Server shutting down."].

(** [isinstance(e, KeyboardInterrupt)]. *)
Definition is_KeyboardInterrupt (e : exn) : bool :=
  match exn_cls e with
  | KeyboardInterrupt => true
  | _ => false
  end.

Section WithJson.

Variable json_loads : str -> res value.

(** Lines 25-45: one accepted connection. *)
Definition handle_connection (c : connection) : M unit :=
  let* conn := accept c in
  with_conn conn (
    print [FStr [10%N]; FText "[CONNECTED] "; FAddr (peer c)] ;;;
    let* data_str := recv_line conn (stream c) [] in
    try_except (
      let* mission_data := lift (json_loads (strip data_str)) in
      print [FText "[RECEIVED MISSION]:"] ;;;
      print [FValue mission_data])
    is_JSONDecodeError
    (fun _ => print [FText "[ERROR] Received non-JSON data: "; FStr data_str])).

(** Lines 22-49: the loop.  A timeout of [accept] goes back to the top;
    [KeyboardInterrupt], from [accept] or from the handling of a
    connection, prints and leaves the loop; any other exception leaves
    [start_server].  With nothing left to arrive the loop turns for ever
    on timeouts. *)
Fixpoint serve (arrivals : list timed_arrival) : M unit :=
  match arrivals with
  | [] => hang
  | TTimeout :: rest => serve rest
  | TAcceptRaises e :: _ =>
    if is_KeyboardInterrupt e then print msg_stopping else raise e
  | TConnect c :: rest =>
    fun w =>
      match handle_connection c w with
      | (Ret _, w') => serve rest w'
      | (Raise e, w') =>
        if is_KeyboardInterrupt e then print msg_stopping w'
        else (Raise e, w')
      | (Hang, w') => (Hang, w')
      end
  end.

(** [start_server] (lines 8-49), with what [bind] and [listen] do as
    parameters: a failure to bind is printed and the server goes on. *)
Definition start_server (bind listen : call unit)
    (arrivals : list timed_arrival) : M unit :=
  try_except (of_call bind ;;; print msg_bound) is_Exception
    (fun e => print (msg_bind_failed e)) ;;;
  of_call listen ;;;
  print msg_live ;;;
  serve arrivals.

End WithJson.

End Diag.

(* ================================================================= *)
(** ** A reference JSON decoder *)

(** [json.loads] belongs to the Python library, not to the bridge: the
    bridge is modelled over an arbitrary [json_loads].  To run the model on
    wire payloads, [Json.loads] decodes the fragment of JSON the bridge's
    clients produce, following the library's scanner: objects, arrays,
    strings with the simple escapes, [true], [false], [null], integers, and
    decimal fractions short enough to convert exactly (fewer than 2^53 as
    an integer, at most 18 fraction digits).  Outside this fragment
    (exponents, [\u] escapes, [NaN] and [Infinity], longer fractions) it
    raises where the library returns a value.  Messages are the library's
    without the position. *)
Module Json.

Definition err (msg : string) : exn := Exn JSONDecodeError msg.

Notation "'let?' ' p := e 'in' k" :=
  (res_bind e (fun x => match x with p => k end))
  (at level 10, p pattern, e at level 100, k at level 200).

Definition is_ws (c : N) : bool :=
  ((c =? 32) || (c =? 9) || (c =? 10) || (c =? 13))%N.

Fixpoint skip_ws (s : str) : str :=
  match s with
  | c :: r => if is_ws c then skip_ws r else s
  | [] => []
  end.

Fixpoint strip_prefix (p s : str) : option str :=
  match p, s with
  | [], _ => Some s
  | a :: p', b :: s' => if (a =? b)%N then strip_prefix p' s' else None
  | _ :: _, [] => None
  end.

Definition is_digit (c : N) : bool := ((48 <=? c) && (c <=? 57))%N.

Fixpoint take_digits (s : str) : str * str :=
  match s with
  | c :: r =>
    if is_digit c then let '(ds, r') := take_digits r in (c :: ds, r')
    else ([], s)
  | [] => ([], [])
  end.

Definition digits_value (ds : str) : Z :=
  fold_left (fun a d => a * 10 + (Z.of_N d - 48))%Z ds 0%Z.

Definition unescape (c : N) : option N :=
  if (c =? 34)%N then Some 34%N          (* quote *)
  else if (c =? 92)%N then Some 92%N     (* backslash *)
  else if (c =? 47)%N then Some 47%N     (* slash *)
  else if (c =? 98)%N then Some 8%N      (* b *)
  else if (c =? 102)%N then Some 12%N    (* f *)
  else if (c =? 110)%N then Some 10%N    (* n *)
  else if (c =? 114)%N then Some 13%N    (* r *)
  else if (c =? 116)%N then Some 9%N     (* t *)
  else None.

(** [scanstring], from just after the opening quote. *)
Fixpoint scan_string (s : str) (acc : str) : res (str * str) :=
  match s with
  | [] => Throw (err "Unterminated string starting at")
  | c :: r =>
    if (c =? 34)%N then Ok (acc, r)
    else if (c =? 92)%N then
      match r with
      | e :: r' =>
        match unescape e with
        | Some u => scan_string r' (acc ++ [u])
        | None => Throw (err "Invalid \escape")
        end
      | [] => Throw (err "Unterminated string starting at")
      end
    else if (c <? 32)%N then Throw (err "Invalid control character at")
    else scan_string r (acc ++ [c])
  end.

Definition float_of_Z (z : Z) : float :=
  PrimFloat.of_uint63 (Uint63.of_Z z).

(** The number at the head of [s], if the library's number pattern
    matches there. *)
Definition scan_number (s : str) : option (res (value * str)) :=
  let '(neg, s1) :=
    match s with
    | c :: r => if (c =? 45)%N then (true, r) else (false, s)
    | [] => (false, s)
    end in
  let '(ints, s2) :=
    match s1 with
    | c :: r => if (c =? 48)%N then ([c], r) else take_digits s1
    | [] => ([], [])
    end in
  match ints with
  | [] => None
  | _ =>
    let '(fracs, s3) :=
      match s2 with
      | c :: r =>
        if (c =? 46)%N then
          match take_digits r with
          | ([], _) => ([], s2)
          | (ds, r') => (ds, r')
          end
        else ([], s2)
      | [] => ([], s2)
      end in
    let exponent :=
      match s3 with
      | c :: r =>
        if ((c =? 101) || (c =? 69))%N then
          match r with
          | d :: r' =>
            if is_digit d then true
            else if ((d =? 43) || (d =? 45))%N then
              match r' with
              | d' :: _ => is_digit d'
              | [] => false
              end
            else false
          | [] => false
          end
        else false
      | [] => false
      end in
    if exponent then Some (Throw (err "exponent outside the fragment"))
    else
      match fracs with
      | [] =>
        let n := digits_value ints in
        Some (Ok (VInt (if neg then - n else n)%Z, s3))
      | _ =>
        let m := digits_value (ints ++ fracs) in
        if ((m <? 2 ^ 53)%Z && (length fracs <=? 18)%nat)%bool then
          let f := PrimFloat.div (float_of_Z m)
                     (float_of_Z (10 ^ Z.of_nat (length fracs))) in
          Some (Ok (VFloat (if neg then PrimFloat.opp f else f), s3))
        else Some (Throw (err "fraction outside the fragment"))
      end
  end.

Definition expecting_value : exn := err "Expecting value".

(** [scan_once], [JSONArray] and [JSONObject].  [array_items] starts at
    an element; [object_members] starts just after the opening quote of
    a key.  The fuel bounds the number of nested and successive calls. *)
Fixpoint scan_once (fuel : nat) (s : str) : res (value * str) :=
  match fuel with
  | O => Throw (err "out of fuel")
  | S fuel =>
    match s with
    | [] => Throw expecting_value
    | c :: r =>
      if (c =? 34)%N then
        let? '(k, r') := scan_string r [] in Ok (VStr k, r')
      else if (c =? 123)%N then
        match r with
        | [] => Throw (err "Expecting property name enclosed in double quotes")
        | _ =>
          match skip_ws r with
          | [] => Throw (err "Expecting property name enclosed in double quotes")
          | d :: r' =>
            if (d =? 125)%N then Ok (VDict ∅, r')
            else if (d =? 34)%N then
              let? '(m, r'') := object_members fuel r' ∅ in Ok (VDict m, r'')
            else Throw (err "Expecting property name enclosed in double quotes")
          end
        end
      else if (c =? 91)%N then
        match skip_ws r with
        | [] => Throw expecting_value
        | d :: r' =>
          if (d =? 93)%N then Ok (VList [], r')
          else let? '(l, r'') := array_items fuel (d :: r') [] in Ok (VList l, r'')
        end
      else
        match strip_prefix (str_of "null") s,
              strip_prefix (str_of "true") s,
              strip_prefix (str_of "false") s with
        | Some r', _, _ => Ok (VNone, r')
        | _, Some r', _ => Ok (VBool true, r')
        | _, _, Some r' => Ok (VBool false, r')
        | None, None, None =>
          match scan_number s with
          | Some n => n
          | None => Throw expecting_value
          end
        end
    end
  end
with array_items (fuel : nat) (s : str) (acc : list value)
    : res (list value * str) :=
  match fuel with
  | O => Throw (err "out of fuel")
  | S fuel =>
    let? '(v, r) := scan_once fuel s in
    let acc := acc ++ [v] in
    match skip_ws r with
    | [] => Throw (err "Expecting ',' delimiter")
    | d :: r' =>
      if (d =? 93)%N then Ok (acc, r')
      else if (d =? 44)%N then array_items fuel (skip_ws r') acc
      else Throw (err "Expecting ',' delimiter")
    end
  end
with object_members (fuel : nat) (s : str) (acc : gmap str value)
    : res (gmap str value * str) :=
  match fuel with
  | O => Throw (err "out of fuel")
  | S fuel =>
    let? '(key, r) := scan_string s [] in
    match skip_ws r with
    | [] => Throw (err "Expecting ':' delimiter")
    | d :: r1 =>
      if (d =? 58)%N then
        let? '(v, r2) := scan_once fuel (skip_ws r1) in
        let acc := <[key := v]> acc in
        match skip_ws r2 with
        | [] => Throw (err "Expecting ',' delimiter")
        | d' :: r3 =>
          if (d' =? 125)%N then Ok (acc, r3)
          else if (d' =? 44)%N then
            match skip_ws r3 with
            | [] => Throw (err "Expecting property name enclosed in double quotes")
            | q :: r4 =>
              if (q =? 34)%N then object_members fuel r4 acc
              else Throw (err "Expecting property name enclosed in double quotes")
            end
          else Throw (err "Expecting ',' delimiter")
        end
      else Throw (err "Expecting ':' delimiter")
    end
  end.

(** [json.loads(s)] for a [str]. *)
Definition loads (s : str) : res value :=
  match s with
  | 65279%N :: _ => Throw (err "Unexpected UTF-8 BOM (decode using utf-8-sig)")
  | _ =>
    let? '(v, r) := scan_once (2 * length s + 2) (skip_ws s) in
    match skip_ws r with
    | [] => Ok v
    | _ => Throw (err "Extra data")
    end
  end.

(** Wire payloads are written with ['] for the double quote. *)
Definition wire (s : string) : bytes :=
  map (fun b => match b with x27 => x22 | _ => b end) (bytes_of s).

Definition text (s : string) : str :=
  map (fun c => if (c =? 39)%N then 34%N else c) (str_of s).

End Json.

(* ================================================================= *)
(** * Properties of the bridge *)

Import Bridge.

(** ** Vocabulary of the statements *)

(** The world with further events at the end of its trace. *)
Definition add_events (evs : list event) (w : world) : world :=
  World (trace w ++ evs) (next_fd w) (action_server w) (goals w).

(** The goals submitted in a run of events, in order. *)
Definition sent (evs : list event) : list Goal :=
  omap (λ ev, match ev with ESendGoal g => Some g | _ => None end) evs.

Definition is_dict (v : value) : bool :=
  match v with
  | VDict _ => true
  | _ => false
  end.

(** The waypoint entry for a waypoint object, and the goal for a mission
    object [m] whose waypoints are the objects [wps]. *)
Definition to_waypoint (m : gmap str value) : NavWaypoints :=
  MkNavWaypoints (default (VFloat 0%float) (m !! k_latitude))
                 (default (VFloat 0%float) (m !! k_longitude)).

Definition goal_of (m : gmap str value) (wps : list (gmap str value)) : Goal :=
  MkGoal (default (VInt 0) (m !! k_search_object))
         (default (VInt 0) (m !! k_search_pattern))
         (to_waypoint <$> wps).

(** Executor items that do not complete the send-goal future. *)
Definition quiet (ev : spin_event) : Prop :=
  match ev with
  | Idle | GoalFinished _ => True
  | _ => False
  end.

Definition response_status (accepted : bool) : goal_status :=
  if accepted then GAccepted else GRejected.

(** The events of a dispatch that runs to its end. *)
Definition dispatched (g : Goal) (future : nat) (accepted : bool) : list event :=
  [ELog INFO msg_sending; EWaitForServer; ESendGoal g; ESpin future;
   EFutureResult future;
   ELog INFO (msg_sent (Some (GoalHandle future accepted)))].

(** Events a dispatch of [g] may add: log lines and calls on the action
    client, the only submission being that of [g]; nothing on a socket. *)
Definition dispatch_event (g : Goal) (ev : event) : Prop :=
  match ev with
  | ELog _ _ | EWaitForServer | ESpin _ | EFutureResult _ => True
  | ESendGoal g' => g' = g
  | _ => False
  end.

(** What the read loop of the bridge does on a stream: the events it
    leaves, and the bytes it ends with or the exception it lets through. *)
Fixpoint recv_events (fd : nat) (stream : list recv_result) : list event :=
  match stream with
  | [] => [ERecv fd (Chunk [])]
  | Chunk [] :: _ => [ERecv fd (Chunk [])]
  | Chunk chunk :: rest => ERecv fd (Chunk chunk) :: recv_events fd rest
  | RecvError e :: _ => [ERecv fd (RecvError e)]
  end.

Fixpoint accumulated (stream : list recv_result) (data : bytes) : res bytes :=
  match stream with
  | [] => Ok data
  | Chunk [] :: _ => Ok data
  | Chunk chunk :: rest => accumulated rest (data ++ chunk)
  | RecvError e :: _ => Throw e
  end.

(** The world once a connection is accepted and read to its end. *)
Definition accepted_world (c : connection) (w : world) : world :=
  World (trace w ++ EAccept (next_fd w) (peer c)
           :: ELog INFO (msg_connection (peer c))
           :: recv_events (next_fd w) (stream c))
        (S (next_fd w)) (action_server w) (goals w).

(** The world after a connection whose handling added the events [evs]
    after the read loop and then closed the socket, the action client
    left as it was. *)
Definition handled (c : connection) (evs : list event) (w : world) : world :=
  World (trace w
         ++ [EAccept (next_fd w) (peer c); ELog INFO (msg_connection (peer c))]
         ++ recv_events (next_fd w) (stream c)
         ++ evs ++ [EClose (next_fd w)])
        (S (next_fd w)) (action_server w) (goals w).

(** Events that touch no socket. *)
Definition no_socket (ev : event) : Prop :=
  match ev with
  | EAccept _ _ | ERecv _ _ | EClose _ => False
  | _ => True
  end.

(** Events that the handling of socket [fd] may leave after its accept:
    no further accept, and socket operations on [fd] only. *)
Definition own_event (fd : nat) (ev : event) : Prop :=
  match ev with
  | EAccept _ _ => False
  | ERecv fd' _ | EClose fd' => fd' = fd
  | _ => True
  end.

(** The log line with which the processing of a payload ends. *)
Definition final_report (ev : event) : Prop :=
  ev = ELog WARN msg_no_waypoints
  ∨ (∃ r, ev = ELog INFO (msg_sent r))
  ∨ (∃ e, ev = ELog ERROR (msg_failed e)).

(** One step of [Utf8.decode_N]: the first code point and the bytes left. *)
Definition utf8_step (bs : list N) : option (N * list N) :=
  match bs with
  | [] => None
  | b0 :: r0 =>
    if (b0 <? 128)%N then Some (b0, r0)
    else if ((194 <=? b0) && (b0 <=? 223))%N then
      match r0 with
      | b1 :: r1 =>
        if Utf8.continuation b1
        then Some (((b0 - 192) * 64 + (b1 - 128))%N, r1)
        else None
      | _ => None
      end
    else if ((224 <=? b0) && (b0 <=? 239))%N then
      match r0 with
      | b1 :: b2 :: r2 =>
        if (Utf8.continuation b1 && Utf8.continuation b2
            && (negb (b0 =? 224) || (160 <=? b1))
            && (negb (b0 =? 237) || (b1 <=? 159)))%N
        then Some (((b0 - 224) * 4096 + (b1 - 128) * 64 + (b2 - 128))%N, r2)
        else None
      | _ => None
      end
    else if ((240 <=? b0) && (b0 <=? 244))%N then
      match r0 with
      | b1 :: b2 :: b3 :: r3 =>
        if (Utf8.continuation b1 && Utf8.continuation b2 && Utf8.continuation b3
            && (negb (b0 =? 240) || (144 <=? b1))
            && (negb (b0 =? 244) || (b1 <=? 143)))%N
        then Some (((b0 - 240) * 262144 + (b1 - 128) * 4096
                    + (b2 - 128) * 64 + (b3 - 128))%N, r3)
        else None
      | _ => None
      end
    else None
  end.

(** ** Sample inputs *)

(** The object a payload decodes to under the reference decoder. *)
Definition object_of (r : res value) : gmap str value :=
  match r with
  | Ok (VDict m) => m
  | _ => ∅
  end.

(** Three waypoints; the second has no longitude, and the mission no
    search pattern. *)
Definition payload_three : bytes :=
  Json.wire "{'search_object': 2, 'nav_waypoints': [{'latitude': 1.0, 'longitude': 2.0}, {'latitude': 3.5}, {'longitude': 4.25, 'latitude': 5.0}]}".

Definition mission_three : gmap str value :=
  object_of (loads_utf8 Json.loads payload_three).

Definition waypoints_three : list (gmap str value) :=
  [ {[ k_latitude := VFloat 1%float; k_longitude := VFloat 2%float ]};
    {[ k_latitude := VFloat 3.5%float ]};
    {[ k_longitude := VFloat 4.25%float; k_latitude := VFloat 5%float ]} ].

(** An action server that is up, takes the goal, accepts it after some
    unrelated work and completes it later. *)
Definition server_accepts : action_script :=
  ActionScript (Returns tt) (Returns tt)
    [Idle; GoalResponse true; Idle; GoalFinished (VStr (str_of "done"))].

Definition payload_empty : bytes := Json.wire "{'nav_waypoints': []}".
Definition payload_absent : bytes := Json.wire "{'search_object': 1}".
Definition payload_null : bytes := Json.wire "{'search_pattern': 3, 'nav_waypoints': null}".
Definition payload_not_json : bytes := bytes_of "not-json".
Definition payload_not_utf8 : bytes := [x7b; xff; x7d].
Definition payload_array : bytes := Json.wire "[1, 2]".
Definition payload_bad_items : bytes :=
  Json.wire "{'nav_waypoints': [{'latitude': 1.0}, 7]}".

Definition client : addr := Addr "192.168.1.20" 51000%N.

(** A connection that delivers [data] in one chunk and closes. *)
Definition one_chunk (data : bytes) : connection :=
  Connection client [Chunk data; Chunk []].

(** A connection that delivers [data] in two chunks and closes. *)
Definition two_chunks (n : nat) (data : bytes) : connection :=
  Connection client [Chunk (take n data); Chunk (drop n data)].

Definition mission_bad_items : value :=
  VDict (object_of (loads_utf8 Json.loads payload_bad_items)).

(** ** The claims the code does not meet, as the spec states them *)

(** "Synchronously await both goal acceptance and final completion before
    returning", the logged outcome being the final result payload: when
    [send_mission] returns for a mission with waypoints, the goal it
    submitted has finished and the last log line carries its outcome. *)
Definition awaits_completion : Prop :=
  ∀ (m : gmap str value) (wps : list (gmap str value)) (w w' : world),
    m !! k_nav_waypoints = Some (VList (VDict <$> wps)) →
    wps ≠ [] →
    send_mission (VDict m) w = (Ret tt, w') →
    ∃ outcome,
      gr_status <$> last (goals w') = Some (GFinished outcome)
      ∧ last (trace w')
        = Some (ELog INFO [FText "Mission goal sent. Result: "; FValue outcome]).

Definition conn_reset : exn :=
  Exn ConnectionResetError "[Errno 104] Connection reset by peer".

(** A peer that sends part of a mission and then resets the connection. *)
Definition broken : connection :=
  Connection client [Chunk (take 20 payload_three); RecvError conn_reset].

(** "A read error ... results in whatever bytes were accumulated being
    passed through to the Translator ...; the Listener ... logs and loops
    to accept the next one": when a [recv] raises after some chunks, the
    chunks received so far are processed and the loop goes on with the
    next arrival. *)
Definition read_error_survived (json_loads : str → res value) : Prop :=
  ∀ (c : connection) (chunks : list bytes) (e : exn) (tail : list recv_result)
    (rest : list arrival) (w : world),
    stream c = (Chunk <$> chunks) ++ RecvError e :: tail →
    Forall (λ chunk, chunk ≠ []) chunks →
    ∃ o w2,
      process json_loads (concat chunks) (accepted_world c w) = (o, w2)
      ∧ run json_loads (Connect c :: rest) w
        = run json_loads rest (add_events [EClose (next_fd w)] w2).

(** A server whose submission call fails. *)
Definition server_refuses : action_script :=
  ActionScript (Returns tt)
    (Raises (Exn RuntimeError "failed to send goal")) [].

(** Two connections opened back to back. *)
Definition back_to_back : list arrival :=
  [Connect (one_chunk payload_three); Connect (two_chunks 5 payload_empty)].

(** A first chunk that ends in a newline, and more data after it. *)
Definition first_line : bytes := Json.wire "{'nav_waypoints': []}" ++ [x0a].
Definition second_line : bytes := Json.wire "{'search_object': 1}".
Definition two_lines : connection :=
  Connection client [Chunk first_line; Chunk second_line; Chunk []].

(** One chunk with data on both sides of a newline, then end of stream. *)
Definition one_chunk_two_lines : bytes :=
  Json.wire "{'nav_waypoints': []}" ++ [x0a] ++ Json.wire "{'search_object': 1}".
Definition two_lines_at_once : connection :=
  Connection client [Chunk one_chunk_two_lines; Chunk []].

(** "For a stream whose first chunk contains a newline followed by more
    data, the two variants decode different payloads": whenever the text
    of the first chunk holds a newline with data after it, and both
    servers get to the end of their reading, the text the bridge hands to
    [json.loads] is not the text the diagnostic server hands to it. *)
Definition framing_always_differs : Prop :=
  ∀ (fd : nat) (c1 : bytes) (before after : str) (later : list recv_result)
    (w w1 w2 : world) (data_str : str) (data : bytes),
    Utf8.decode c1 = Ok (before ++ 10%N :: after) →
    after ≠ [] →
    Diag.recv_line fd (Chunk c1 :: later) [] w = (Ret data_str, w1) →
    recv_all fd (Chunk c1 :: later) [] w = (Ret data, w2) →
    Utf8.decode data ≠ Ok (strip data_str).

(** ** Vocabulary of the further properties *)

(** Two waypoint items that agree on what the bridge reads of them:
    objects with the same [latitude] and [longitude] bindings. *)
Definition same_waypoint (a b : value) : Prop :=
  ∃ ma mb : gmap str value,
    a = VDict ma ∧ b = VDict mb
    ∧ ma !! k_latitude = mb !! k_latitude
    ∧ ma !! k_longitude = mb !! k_longitude.

(** Values that have no [len]. *)
Definition is_scalar (v : value) : bool :=
  match v with
  | VBool _ | VInt _ | VFloat _ => true
  | _ => false
  end.

Definition no_len (v : value) : exn :=
  Exn TypeError ("object of type '" ++ type_name v ++ "' has no len()").

(** The same mission with keys the bridge does not read. *)
Definition payload_three_noisy : bytes :=
  Json.wire "{'id': 'm-17', 'search_object': 2, 'nav_waypoints': [{'latitude': 1.0, 'longitude': 2.0, 'alt': 30}, {'latitude': 3.5, 'name': 'b'}, {'longitude': 4.25, 'latitude': 5.0}], 'priority': null}".

Definition mission_three_noisy : gmap str value :=
  object_of (loads_utf8 Json.loads payload_three_noisy).

Definition payload_number : bytes := Json.wire "{'nav_waypoints': 3}".

(** A server that never comes up, and one that takes the goal and never
    answers. *)
Definition server_down : action_script :=
  ActionScript Blocks (Returns tt) [].
Definition server_silent : action_script :=
  ActionScript (Returns tt) (Returns tt) [Idle; Idle].

Definition address_in_use : exn :=
  Exn OSError "[Errno 98] Address already in use".

(** The chunks [raws] decode, each on its own, to the non-empty texts
    [texts]. *)
Definition decoded_chunks (raws : list bytes) (texts : list str) : Prop :=
  Forall2 (λ raw t, Utf8.decode raw = Ok t ∧ t ≠ []) raws texts.

(** One [recv] event per chunk. *)
Definition recvs (fd : nat) (raws : list bytes) : list event :=
  (λ raw, ERecv fd (Chunk raw)) <$> raws.

(** The diagnostic server's world once a connection is accepted and
    announced. *)
Definition diag_accepted (c : connection) (w : world) : world :=
  World (trace w ++ [EAccept (next_fd w) (peer c);
                     EPrint [FStr [10%N]; FText "[CONNECTED] "; FAddr (peer c)]])
        (S (next_fd w)) (action_server w) (goals w).

(** What the diagnostic server may do between the accept and the close
    of socket [fd]: read from it, and print. *)
Definition diag_body (fd : nat) (ev : event) : Prop :=
  match ev with
  | ERecv fd' _ => fd' = fd
  | EPrint _ => True
  | _ => False
  end.

Definition is_timeout (a : Diag.timed_arrival) : bool :=
  match a with
  | Diag.TTimeout => true
  | _ => false
  end.

Definition without_timeouts (arrivals : list Diag.timed_arrival)
    : list Diag.timed_arrival :=
  List.filter (λ a, negb (is_timeout a)) arrivals.

(** A payload whose string holds a euro sign (three bytes in UTF-8), cut
    inside that character. *)
Definition payload_euro : bytes :=
  Json.wire "{'note': '" ++ [xe2; x82; xac] ++ Json.wire "', 'nav_waypoints': []}".
Definition cut_euro : connection :=
  Connection client [Chunk (take 11 payload_euro); Chunk (drop 11 payload_euro);
                     Chunk []].

Definition ctrl_c : exn := Exn KeyboardInterrupt "".

(** What the diagnostic server does at all: socket operations and
    prints. *)
Definition diag_event (ev : event) : Prop :=
  match ev with
  | EAccept _ _ | ERecv _ _ | EClose _ | EPrint _ => True
  | _ => False
  end.

(** A computation that only adds to the trace, and adds the same events
    whatever the trace holds: its outcome and what it leaves of the rest
    of the world depend on the rest of the world alone. *)
Definition appends {A} (m : M A) : Prop :=
  ∀ n a g, ∃ o evs n' a' g',
    ∀ t, m (World t n a g) = (o, World (t ++ evs) n' a' g').

(** A stream of non-empty chunks closed by the peer. *)
Definition closed_stream (chunks : list bytes) (tail : list recv_result)
    : list recv_result :=
  (Chunk <$> chunks) ++ Chunk [] :: tail.

(** ** Basic facts *)

Lemma add_events_app evs1 evs2 w :
  add_events evs2 (add_events evs1 w) = add_events (evs1 ++ evs2) w.
Proof. unfold add_events; simpl. by rewrite app_assoc. Qed.

Lemma emit_add ev w : emit ev w = (Ret tt, add_events [ev] w).
Proof. reflexivity. Qed.

Lemma append_waypoints_dicts (wps : list (gmap str value)) (g : Goal) :
  append_waypoints (VDict <$> wps) g
  = Ok (set_nav_waypoints g (nav_waypoints g ++ (to_waypoint <$> wps))).
Proof.
  revert g. induction wps as [|m wps IH]; intros g; simpl.
  - rewrite app_nil_r. by destruct g.
  - rewrite IH. unfold append_waypoint, set_nav_waypoints; simpl.
    by rewrite <- app_assoc.
Qed.

Lemma send_mission_not_dict mission w :
  (∀ m, mission ≠ VDict m) →
  send_mission mission w = (Raise (no_attribute mission "get"), w).
Proof.
  intros H. destruct mission; try reflexivity. by destruct (H m).
Qed.

Lemma send_mission_falsy (m : gmap str value) v w :
  default (VList []) (m !! k_nav_waypoints) = v →
  truthy v = false →
  send_mission (VDict m) w = (Ret tt, add_events [ELog WARN msg_no_waypoints] w).
Proof.
  intros Hv Ht. unfold send_mission, bind, lift, py_get, no_waypoints.
  rewrite Hv. simpl. rewrite Ht. reflexivity.
Qed.

Lemma build_goal_dicts (m : gmap str value) (wps : list (gmap str value)) :
  build_goal (VDict m) (VList (VDict <$> wps)) = Ok (goal_of m wps).
Proof.
  unfold build_goal. simpl. apply append_waypoints_dicts.
Qed.

Lemma send_mission_dicts (m : gmap str value) (wps : list (gmap str value)) w :
  m !! k_nav_waypoints = Some (VList (VDict <$> wps)) →
  wps ≠ [] →
  send_mission (VDict m) w = dispatch (goal_of m wps) w.
Proof.
  intros Hm Hne. unfold send_mission, bind, lift, py_get, no_waypoints.
  rewrite Hm. simpl.
  destruct wps as [|wp wps]; [done|]. simpl.
  pose proof (build_goal_dicts m (wp :: wps)) as Hb. simpl in Hb.
  rewrite Hb. reflexivity.
Qed.

Lemma spin_until_pending evs o st pend :
  spin_until evs GPending = (o, st, pend) →
  match o with
  | Ret _ =>
    (∃ pre accepted, evs = pre ++ GoalResponse accepted :: pend
        ∧ st = (if accepted then GAccepted else GRejected))
    ∨ (∃ pre e, evs = pre ++ GoalResponseFailed e :: pend ∧ st = GResponseFailed e)
  | Raise e => st = GPending ∧ ∃ pre, evs = pre ++ SpinRaises e :: pend
  | Hang => st = GPending ∧ pend = []
  end.
Proof.
  revert o st pend. induction evs as [|ev evs IH]; intros o st pend; simpl.
  - intros [= <- <- <-]. done.
  - destruct ev as [|[]|e|out|e]; simpl.
    + intros H. apply IH in H. destruct o as [[]|e'|].
      * destruct H as [(pre & acc & -> & ->)|(pre & e & -> & ->)].
        -- left. by exists (Idle :: pre), acc.
        -- right. by exists (Idle :: pre), e.
      * destruct H as (-> & pre & ->). split; [done|]. by exists (Idle :: pre).
      * done.
    + destruct evs; simpl; intros [= <- <- <-]; left; by exists [], true.
    + destruct evs; simpl; intros [= <- <- <-]; left; by exists [], false.
    + destruct evs; simpl; intros [= <- <- <-]; right; by exists [], e.
    + intros H. apply IH in H. destruct o as [[]|e'|].
      * destruct H as [(pre & acc & -> & ->)|(pre & e & -> & ->)].
        -- left. by exists (GoalFinished out :: pre), acc.
        -- right. by exists (GoalFinished out :: pre), e.
      * destruct H as (-> & pre & ->). split; [done|]. by exists (GoalFinished out :: pre).
      * done.
    + intros [= <- <- <-]. split; [done|]. by exists [].
Qed.

Lemma spin_until_response pre accepted pend :
  Forall quiet pre →
  spin_until (pre ++ GoalResponse accepted :: pend) GPending
  = (Ret tt, response_status accepted, pend).
Proof.
  induction 1 as [|ev pre Hq _ IH]; simpl.
  - destruct accepted, pend; reflexivity.
  - destruct ev; try done; simpl; exact IH.
Qed.

Lemma insert_last {A} (l : list A) (x y : A) :
  <[length l := y]> (l ++ [x]) = l ++ [y].
Proof.
  replace (length l) with (length l + 0) by lia.
  by rewrite insert_app_r.
Qed.

Lemma lookup_last {A} (l : list A) (x : A) : (l ++ [x]) !! length l = Some x.
Proof. by apply list_lookup_middle. Qed.

Lemma dispatch_response g w s rest pre accepted pend :
  action_server w = s :: rest →
  on_wait_for_server s = Returns tt →
  on_send_goal_async s = Returns tt →
  on_spin s = pre ++ GoalResponse accepted :: pend →
  Forall quiet pre →
  dispatch g w
  = (Ret tt,
     World (trace w ++ dispatched g (length (goals w)) accepted)
           (next_fd w) rest
           (goals w ++ [GoalRecord g (response_status accepted) pend])).
Proof.
  intros Hs Hw Hsend Hspin Hq.
  unfold dispatch, bind, log, emit, wait_for_server, send_goal_async,
    spin_until_future_complete, future_result, bind, emit; simpl.
  rewrite Hs, Hw; simpl. rewrite Hsend; simpl.
  rewrite lookup_last; simpl.
  rewrite Hspin, (spin_until_response _ _ _ Hq).
  rewrite insert_last; simpl. rewrite lookup_last; simpl.
  unfold dispatched.
  destruct accepted; simpl; rewrite <- !app_assoc; reflexivity.
Qed.

Lemma dispatch_ret_inv g w w' :
  dispatch g w = (Ret tt, w') →
  ∃ s rest pre accepted pend,
    action_server w = s :: rest
    ∧ on_spin s = pre ++ GoalResponse accepted :: pend
    ∧ w' = World (trace w ++ dispatched g (length (goals w)) accepted)
                 (next_fd w) rest
                 (goals w ++ [GoalRecord g (response_status accepted) pend]).
Proof.
  unfold dispatch, bind, log, emit, wait_for_server, send_goal_async,
    spin_until_future_complete, future_result, bind, emit; simpl.
  destruct (action_server w) as [|s rest] eqn:Hs; [done|].
  destruct (on_wait_for_server s) as [[]|e|]; simpl; [|done..].
  destruct (on_send_goal_async s) as [[]|e|]; simpl; [|done..].
  rewrite lookup_last; simpl.
  destruct (spin_until (on_spin s) GPending) as [[o st] pend] eqn:Hspin.
  apply spin_until_pending in Hspin.
  rewrite insert_last.
  destruct o as [[]|e|]; simpl; [|done..].
  rewrite lookup_last; simpl.
  destruct Hspin as [(pre & accepted & Hpre & ->)|(pre & e & Hpre & ->)].
  - intros H. exists s, rest, pre, accepted, pend. split; [done|]. split; [done|].
    unfold dispatched.
    destruct accepted; simpl in H; rewrite <- !app_assoc in H; simpl in H;
      by injection H as <-.
  - simpl. done.
Qed.

Ltac close_trace :=
  intros [= <- <-]; eexists; split;
  [ simpl; rewrite <- ?app_assoc; reflexivity
  | split; [reflexivity | repeat constructor] ].

Lemma dispatch_trace g w o w' :
  dispatch g w = (o, w') →
  ∃ evs, trace w' = trace w ++ evs ∧ next_fd w' = next_fd w
         ∧ Forall (dispatch_event g) evs.
Proof.
  unfold dispatch, bind, log, emit, wait_for_server, send_goal_async,
    spin_until_future_complete, future_result, bind, emit; simpl.
  destruct (action_server w) as [|s rest] eqn:Hs; [close_trace|].
  destruct (on_wait_for_server s) as [[]|e|]; simpl; [|close_trace..].
  destruct (on_send_goal_async s) as [[]|e|]; simpl; [|close_trace..].
  rewrite lookup_last; simpl.
  destruct (spin_until (on_spin s) GPending) as [[o1 st] pend] eqn:Hspin.
  rewrite insert_last.
  destruct o1 as [[]|e|]; simpl; [|close_trace..].
  rewrite lookup_last; simpl.
  destruct st; simpl; close_trace.
Qed.

Lemma py_get_not_dict v key dflt :
  is_dict v = false → py_get v key dflt = Throw (no_attribute v "get").
Proof. by destruct v. Qed.

Lemma append_waypoints_not_dict items g :
  Exists (λ x, is_dict x = false) items →
  ∃ x, x ∈ items ∧ is_dict x = false
       ∧ append_waypoints items g = Throw (no_attribute x "get").
Proof.
  revert g. induction items as [|wp items IH]; intros g Hex.
  - by apply Exists_nil in Hex.
  - destruct (is_dict wp) eqn:Hwp.
    + apply Exists_cons in Hex as [Hex|Hex]; [congruence|].
      destruct wp; try done. simpl.
      destruct (IH (append_waypoint g
                      (set_longitude
                         (set_latitude NavWaypoints_new
                            (default (VFloat 0) (m !! k_latitude)))
                         (default (VFloat 0) (m !! k_longitude)))) Hex)
        as (x & Hin & Hx & ->).
      exists x. split; [by right|done].
    + exists wp. split; [by left|]. split; [done|].
      simpl. by rewrite py_get_not_dict.
Qed.

Lemma append_waypoints_throw items g e :
  append_waypoints items g = Throw e → exn_cls e = AttributeError.
Proof.
  revert g. induction items as [|wp items IH]; intros g; simpl; [done|].
  destruct wp; simpl; try by intros [= <-].
  apply IH.
Qed.

Lemma build_goal_throw mission waypoints e :
  build_goal mission waypoints = Throw e →
  exn_cls e = AttributeError ∨ exn_cls e = TypeError.
Proof.
  unfold build_goal.
  destruct mission; simpl; try (intros [= <-]; by left).
  destruct waypoints; simpl; try (intros [= <-]; by right);
    intros H; left; by apply append_waypoints_throw in H.
Qed.

Lemma no_waypoints_throw v e :
  no_waypoints v = Throw e → exn_cls e = TypeError.
Proof.
  unfold no_waypoints. destruct (negb (truthy v)); [done|].
  destruct v; simpl; try done; by intros [= <-].
Qed.

Lemma send_mission_cases mission w o w' :
  send_mission mission w = (o, w') →
  (∃ e, o = Raise e ∧ w' = w
        ∧ (exn_cls e = AttributeError ∨ exn_cls e = TypeError))
  ∨ (o = Ret tt ∧ w' = add_events [ELog WARN msg_no_waypoints] w)
  ∨ (∃ m g, mission = VDict m
        ∧ no_waypoints (default (VList []) (m !! k_nav_waypoints)) = Ok false
        ∧ build_goal mission (default (VList []) (m !! k_nav_waypoints)) = Ok g
        ∧ dispatch g w = (o, w')).
Proof.
  unfold send_mission, bind, lift.
  destruct mission; simpl; try (intros [= <- <-]; left; eexists; by eauto).
  destruct (no_waypoints _) as [[]|e] eqn:Hn; simpl.
  - intros [= <- <-]. right; left. done.
  - destruct (build_goal _ _) as [g|e] eqn:Hb; simpl.
    + intros H. right; right. by exists m, g.
    + intros [= <- <-]. left. exists e. apply build_goal_throw in Hb. done.
  - intros [= <- <-]. left. exists e. apply no_waypoints_throw in Hn. eauto.
Qed.

Lemma recv_all_eq fd stream data w :
  recv_all fd stream data w
  = lift (accumulated stream data) (add_events (recv_events fd stream) w).
Proof.
  revert data w. induction stream as [|[chunk|e] stream IH]; intros data w.
  - reflexivity.
  - destruct chunk as [|b chunk]; [reflexivity|].
    cbn [recv_all accumulated recv_events]. unfold bind at 1. rewrite emit_add.
    rewrite IH. by rewrite add_events_app.
  - reflexivity.
Qed.

Section Loop.
Variable json_loads : str → res value.

Lemma handle_connection_eq c w :
  handle_connection json_loads c w
  = match accumulated (stream c) [] with
    | Throw e => (Raise e, add_events [EClose (next_fd w)] (accepted_world c w))
    | Ok data =>
      match process json_loads data (accepted_world c w) with
      | (Hang, w') => (Hang, w')
      | (o, w') => (o, add_events [EClose (next_fd w)] w')
      end
    end.
Proof.
  unfold handle_connection, bind, accept, with_conn, log; simpl.
  rewrite recv_all_eq.
  assert (add_events (recv_events (next_fd w) (stream c))
            (World ((trace w ++ [EAccept (next_fd w) (peer c)])
                      ++ [ELog INFO (msg_connection (peer c))])
                   (S (next_fd w)) (action_server w) (goals w))
          = accepted_world c w) as ->.
  { unfold add_events, accepted_world; simpl. by rewrite <- !app_assoc. }
  destruct (accumulated (stream c) []) as [data|e]; simpl; [|done].
  by destruct (process json_loads data (accepted_world c w)) as [[[]|e|] w'].
Qed.
End Loop.

Lemma sent_app evs1 evs2 : sent (evs1 ++ evs2) = sent evs1 ++ sent evs2.
Proof. apply omap_app. Qed.

Lemma sent_recv_events fd stream : sent (recv_events fd stream) = [].
Proof.
  induction stream as [|[[|b chunk]|e] stream IH]; simpl; try done.
Qed.

Section Loop2.
Variable json_loads : str → res value.

Lemma run_connect c rest w w' :
  handle_connection json_loads c w = (Ret tt, w') →
  run json_loads (Connect c :: rest) w = run json_loads rest w'.
Proof. intros H. simpl. unfold bind. by rewrite H. Qed.

Lemma process_decode_error data e w :
  loads_utf8 json_loads data = Throw e →
  is_Exception e = true →
  process json_loads data w = (Ret tt, add_events [ELog ERROR (msg_failed e)] w).
Proof.
  intros H He. unfold process, try_except, translate, bind, lift.
  rewrite H. simpl. by rewrite He.
Qed.

Lemma process_decoded data mission w :
  loads_utf8 json_loads data = Ok mission →
  process json_loads data w
  = match send_mission mission (add_events [ELog INFO (msg_received mission)] w) with
    | (Raise e, w') =>
      if is_Exception e then (Ret tt, add_events [ELog ERROR (msg_failed e)] w')
      else (Raise e, w')
    | r => r
    end.
Proof.
  intros H. unfold process, try_except, translate, bind, lift.
  rewrite H. simpl. reflexivity.
Qed.

Lemma handled_eq c evs w :
  add_events [EClose (next_fd w)] (add_events evs (accepted_world c w))
  = handled c evs w.
Proof.
  unfold add_events, accepted_world, handled; simpl.
  f_equal. rewrite <- !app_assoc. simpl. done.
Qed.

Lemma sent_handled c evs w :
  sent (trace (handled c evs w)) = sent (trace w) ++ sent evs.
Proof.
  unfold handled; cbn [trace]. rewrite !sent_app, sent_recv_events. simpl.
  by rewrite app_nil_r.
Qed.

Lemma handle_decode_error c data e w :
  accumulated (stream c) [] = Ok data →
  loads_utf8 json_loads data = Throw e →
  is_Exception e = true →
  handle_connection json_loads c w
  = (Ret tt, handled c [ELog ERROR (msg_failed e)] w).
Proof.
  intros Hd Hl He. rewrite handle_connection_eq, Hd.
  rewrite (process_decode_error _ _ _ Hl He). cbv beta iota.
  by rewrite handled_eq.
Qed.

Lemma handle_send_raises c data mission e w :
  accumulated (stream c) [] = Ok data →
  loads_utf8 json_loads data = Ok mission →
  (∀ w1, send_mission mission w1 = (Raise e, w1)) →
  is_Exception e = true →
  handle_connection json_loads c w
  = (Ret tt, handled c [ELog INFO (msg_received mission);
                        ELog ERROR (msg_failed e)] w).
Proof.
  intros Hd Hl Hs He. rewrite handle_connection_eq, Hd.
  rewrite (process_decoded _ _ _ Hl), Hs, He. cbv beta iota.
  rewrite (add_events_app [ELog INFO _]). by rewrite handled_eq.
Qed.

Lemma handle_send_warns c data mission w :
  accumulated (stream c) [] = Ok data →
  loads_utf8 json_loads data = Ok mission →
  (∀ w1, send_mission mission w1
         = (Ret tt, add_events [ELog WARN msg_no_waypoints] w1)) →
  handle_connection json_loads c w
  = (Ret tt, handled c [ELog INFO (msg_received mission);
                        ELog WARN msg_no_waypoints] w).
Proof.
  intros Hd Hl Hs. rewrite handle_connection_eq, Hd.
  rewrite (process_decoded _ _ _ Hl), Hs. cbv beta iota.
  rewrite (add_events_app [ELog INFO _]). by rewrite handled_eq.
Qed.

End Loop2.

Lemma build_goal_bad_items (m : gmap str value) waypoints items :
  py_iter waypoints = Ok items →
  Exists (λ x, is_dict x = false) items →
  ∃ x, x ∈ items ∧ is_dict x = false
       ∧ build_goal (VDict m) waypoints = Throw (no_attribute x "get").
Proof.
  intros Hit Hex. unfold build_goal. cbn [py_get res_bind]. rewrite Hit.
  cbn [res_bind]. by apply append_waypoints_not_dict.
Qed.

Lemma no_waypoints_items waypoints items :
  py_iter waypoints = Ok items → items ≠ [] →
  no_waypoints waypoints = Ok false.
Proof.
  unfold no_waypoints.
  destruct waypoints; simpl; try done; intros [= <-] Hne.
  - by destruct s.
  - by destruct l.
  - rewrite <- length_map_to_list. by destruct (map_to_list m).
Qed.

Lemma send_mission_bad_items (m : gmap str value) waypoints items :
  m !! k_nav_waypoints = Some waypoints →
  py_iter waypoints = Ok items →
  Exists (λ x, is_dict x = false) items →
  ∃ x, x ∈ items ∧ is_dict x = false
       ∧ ∀ w, send_mission (VDict m) w = (Raise (no_attribute x "get"), w).
Proof.
  intros Hm Hit Hex.
  destruct (build_goal_bad_items m waypoints items Hit Hex)
    as (x & Hin & Hx & Hb).
  exists x. split; [done|]. split; [done|]. intros w.
  unfold send_mission, bind, lift. cbn [py_get]. rewrite Hm.
  unfold ret at 1. cbn [default id].
  rewrite (no_waypoints_items waypoints items); [|done|].
  - unfold ret at 1. cbv beta iota. rewrite Hb. reflexivity.
  - intros ->. by apply Exists_nil in Hex.
Qed.


(** ** UTF-8 decoding of concatenated chunks *)

Lemma decode_N_step b0 r0 :
  Utf8.decode_N (b0 :: r0)
  = match utf8_step (b0 :: r0) with
    | Some (cp, r) => cons cp <$> Utf8.decode_N r
    | None => None
    end.
Proof. simpl. repeat case_match; simplify_eq; done. Qed.

Lemma utf8_step_app a b cp r :
  utf8_step a = Some (cp, r) →
  utf8_step (a ++ b) = Some (cp, r ++ b) ∧ length r < length a.
Proof.
  destruct a as [|b0 r0]; [done|]. simpl.
  intros H. repeat case_match; simpl in *; simplify_eq; split;
    (done || lia || congruence).
Qed.

Lemma decode_N_app_aux n : ∀ a b sa,
  length a ≤ n →
  Utf8.decode_N a = Some sa →
  Utf8.decode_N (a ++ b) = (sa ++.) <$> Utf8.decode_N b.
Proof.
  induction n as [|n IH]; intros a b sa Hlen Ha.
  - destruct a; simpl in Hlen; [|lia]. simpl in Ha. injection Ha as <-.
    simpl. by destruct (Utf8.decode_N b).
  - destruct a as [|b0 a].
    { simpl in Ha. injection Ha as <-. simpl. by destruct (Utf8.decode_N b). }
    rewrite decode_N_step in Ha.
    change ((b0 :: a) ++ b) with (b0 :: (a ++ b)). rewrite decode_N_step.
    destruct (utf8_step (b0 :: a)) as [[cp r]|] eqn:Hstep; [|done].
    apply (utf8_step_app _ b) in Hstep as [Hstep Hr].
    change (b0 :: (a ++ b)) with ((b0 :: a) ++ b). rewrite Hstep.
    apply fmap_Some in Ha as (sr & Hsr & ->).
    rewrite (IH r b sr); [|simpl in *; lia|done].
    by destruct (Utf8.decode_N b).
Qed.

Lemma decode_N_app a b sa :
  Utf8.decode_N a = Some sa →
  Utf8.decode_N (a ++ b) = (sa ++.) <$> Utf8.decode_N b.
Proof. by apply (decode_N_app_aux (length a)). Qed.

Lemma decode_N_nonempty b0 r s : Utf8.decode_N (b0 :: r) = Some s → s ≠ [].
Proof.
  rewrite decode_N_step. destruct (utf8_step (b0 :: r)) as [[cp r']|]; [|done].
  intros H. apply fmap_Some in H as (? & _ & ->). done.
Qed.

Lemma lstrip_length s : length (lstrip s) ≤ length s.
Proof.
  induction s as [|c s IH]; simpl; [done|].
  destruct (is_space c); simpl; lia.
Qed.

Lemma strip_length s : length (strip s) ≤ length s.
Proof.
  unfold strip. rewrite length_rev.
  etrans; [apply lstrip_length|]. rewrite length_rev. apply lstrip_length.
Qed.

Lemma accumulated_closed chunks tail acc :
  Forall (λ chunk, chunk ≠ []) chunks →
  accumulated (closed_stream chunks tail) acc = Ok (acc ++ concat chunks).
Proof.
  unfold closed_stream. intros Hne. revert acc.
  induction Hne as [|chunk chunks Hc _ IH]; intros acc; simpl.
  - by rewrite app_nil_r.
  - destruct chunk; [done|]. rewrite IH. by rewrite <- app_assoc.
Qed.

Lemma recv_events_closed fd chunks tail :
  Forall (λ chunk, chunk ≠ []) chunks →
  recv_events fd (closed_stream chunks tail)
  = recvs fd chunks ++ [ERecv fd (Chunk [])].
Proof.
  unfold closed_stream, recvs. intros Hne.
  induction Hne as [|chunk chunks Hc _ IH]; [done|].
  destruct chunk; [done|]. rewrite !fmap_cons. cbn [app recv_events].
  by rewrite IH.
Qed.

Lemma decode_app_inv (c1 more : bytes) s1 t :
  Utf8.decode c1 = Ok s1 →
  Utf8.decode (c1 ++ more) = Ok t →
  ∃ t2, Utf8.decode more = Ok t2 ∧ t = s1 ++ t2.
Proof.
  unfold Utf8.decode. rewrite map_app.
  destruct (Utf8.decode_N (map to_N c1)) as [s1'|] eqn:H1; [|done].
  intros [= ->]. rewrite (decode_N_app _ _ _ H1).
  destruct (Utf8.decode_N (map to_N more)) as [t2|]; [|done].
  simpl. intros [= <-]. by exists t2.
Qed.

Lemma decode_nonempty (more : bytes) t2 :
  more ≠ [] → Utf8.decode more = Ok t2 → t2 ≠ [].
Proof.
  unfold Utf8.decode. destruct more as [|b more]; [done|]. intros _.
  simpl map.
  destruct (Utf8.decode_N (to_N b :: map to_N more)) as [sb|] eqn:Hb; [|done].
  intros [= <-]. by apply decode_N_nonempty in Hb.
Qed.

(** [strip] removes whitespace only, and only at the two ends. *)

Lemma lstrip_spaces a : forallb is_space a = true → lstrip a = [].
Proof.
  induction a as [|c a IH]; simpl; [done|].
  destruct (is_space c); simpl; [exact IH|done].
Qed.

Lemma lstrip_app_spaces a b :
  forallb is_space a = true → lstrip (a ++ b) = lstrip b.
Proof.
  induction a as [|c a IH]; simpl; [done|].
  destruct (is_space c); simpl; [exact IH|done].
Qed.

Lemma lstrip_app_text a b :
  forallb is_space a = false → lstrip (a ++ b) = lstrip a ++ b.
Proof.
  induction a as [|c a IH]; simpl; [done|].
  destruct (is_space c); simpl; [exact IH|done].
Qed.

Lemma forallb_rev {A} (f : A → bool) l : forallb f (rev l) = forallb f l.
Proof.
  induction l as [|x l IH]; simpl; [done|].
  rewrite forallb_app, IH. simpl. rewrite andb_true_r. apply andb_comm.
Qed.

Lemma lstrip_text a : forallb is_space a = false → forallb is_space (lstrip a) = false.
Proof.
  induction a as [|c a IH]; simpl; [done|].
  destruct (is_space c) eqn:Hc; simpl; [exact IH|]. by rewrite Hc.
Qed.

Lemma strip_app_spaces s t2 :
  forallb is_space t2 = true → strip (s ++ t2) = strip s.
Proof.
  intros Ht2. unfold strip.
  destruct (forallb is_space s) eqn:Hs.
  - rewrite (lstrip_app_spaces _ _ Hs), (lstrip_spaces _ Ht2).
    by rewrite (lstrip_spaces _ Hs).
  - rewrite (lstrip_app_text _ _ Hs), rev_app_distr.
    rewrite lstrip_app_spaces; [done|]. by rewrite forallb_rev.
Qed.

Lemma strip_app_text s t2 :
  forallb is_space t2 = false → length (strip s) < length (strip (s ++ t2)).
Proof.
  intros Ht2. unfold strip. rewrite !length_rev.
  assert (0 < length (lstrip (rev t2))) as Hpos.
  { assert (forallb is_space (lstrip (rev t2)) = false) as H
      by (apply lstrip_text; by rewrite forallb_rev).
    destruct (lstrip (rev t2)); [done|]. simpl. lia. }
  destruct (forallb is_space s) eqn:Hs.
  - rewrite (lstrip_app_spaces _ _ Hs), (lstrip_spaces _ Hs). simpl.
    assert (forallb is_space (lstrip t2) = false) as Hl by by apply lstrip_text.
    assert (forallb is_space (lstrip (rev (lstrip t2))) = false) as H.
    { apply lstrip_text. by rewrite forallb_rev. }
    destruct (lstrip (rev (lstrip t2))); [done|]. simpl. lia.
  - rewrite (lstrip_app_text _ _ Hs), rev_app_distr.
    rewrite lstrip_app_text by by rewrite forallb_rev.
    rewrite length_app.
    pose proof (lstrip_length (rev (lstrip s))). lia.
Qed.

(** ** The decoders on sample inputs *)

Example utf8_ascii : Utf8.decode (bytes_of "not-json") = Ok (str_of "not-json").
Proof. reflexivity. Qed.

Example utf8_euro : Utf8.decode [xe2; x82; xac] = Ok [8364%N].
Proof. reflexivity. Qed.

Example utf8_four_bytes : Utf8.decode [xf0; x9f; x98; x80] = Ok [128512%N].
Proof. reflexivity. Qed.

Example utf8_stray_continuation : Utf8.decode [x80] = Throw Utf8.decode_error.
Proof. reflexivity. Qed.

Example utf8_overlong : Utf8.decode [xc0; x80] = Throw Utf8.decode_error.
Proof. reflexivity. Qed.

Example utf8_surrogate : Utf8.decode [xed; xa0; x80] = Throw Utf8.decode_error.
Proof. reflexivity. Qed.

Example utf8_truncated : Utf8.decode [x7b; xe2; x82] = Throw Utf8.decode_error.
Proof. reflexivity. Qed.

Example loads_one_waypoint :
  Json.loads (Json.text "{'nav_waypoints':[{'latitude':1.0,'longitude':2.0}]}")
  = Ok (VDict {[ k_nav_waypoints :=
                   VList [VDict {[ k_latitude := VFloat 1%float;
                                   k_longitude := VFloat 2%float ]}] ]}).
Proof. vm_compute. reflexivity. Qed.

Example loads_three : loads_utf8 Json.loads payload_three = Ok (VDict mission_three).
Proof. vm_compute. reflexivity. Qed.

Example mission_three_waypoints :
  mission_three !! k_nav_waypoints = Some (VList (VDict <$> waypoints_three)).
Proof. vm_compute. reflexivity. Qed.

Example loads_not_json :
  Json.loads (str_of "not-json") = Throw Json.expecting_value.
Proof. reflexivity. Qed.

Example loads_last_key_wins :
  Json.loads (Json.text "{'a': 1, 'a': [true, null]}")
  = Ok (VDict {[ str_of "a" := VList [VBool true; VNone] ]}).
Proof. vm_compute. reflexivity. Qed.

Example loads_trailing_comma :
  Json.loads (Json.text "[1, 2,]") = Throw Json.expecting_value.
Proof. reflexivity. Qed.

Example loads_extra_data :
  Json.loads (Json.text "{} {}") = Throw (Json.err "Extra data").
Proof. reflexivity. Qed.

Example loads_surrounding_space :
  Json.loads (str_of "  [ -12 , 0.5 ]  ")
  = Ok (VList [VInt (-12); VFloat 0.5%float]).
Proof. reflexivity. Qed.

(** ** The goal built from a mission *)

Lemma dispatch_submits g w s rest :
  action_server w = s :: rest →
  on_wait_for_server s = Returns tt →
  ∃ evs, trace (dispatch g w).2 = trace w ++ evs ∧ sent evs = [g].
Proof.
  intros Hs Hw.
  unfold dispatch, bind, log, emit, wait_for_server, send_goal_async,
    spin_until_future_complete, future_result, bind, emit; simpl.
  rewrite Hs, Hw; simpl.
  destruct (on_send_goal_async s) as [[]|e|]; simpl;
    try (eexists; split; [rewrite <- ?app_assoc; reflexivity|reflexivity]).
  rewrite lookup_last; simpl.
  destruct (spin_until (on_spin s) GPending) as [[o1 st] pend] eqn:Hspin.
  rewrite insert_last.
  destruct o1 as [[]|e|]; simpl;
    try (eexists; split; [rewrite <- ?app_assoc; reflexivity|reflexivity]).
  rewrite lookup_last; simpl.
  destruct st; simpl;
    (eexists; split; [rewrite <- ?app_assoc; reflexivity|reflexivity]).
Qed.

(** C1: for a mission object whose [nav_waypoints] is a non-empty list of
    waypoint objects, [send_mission] builds one goal, dispatches that goal
    and no other, and the goal's waypoint sequence has one entry per input
    object, the i-th entry built from the i-th object: count and order
    are those of the input. *)
Theorem send_mission_preserves_waypoints
    (m : gmap str value) (wps : list (gmap str value)) :
  m !! k_nav_waypoints = Some (VList (VDict <$> wps)) →
  wps ≠ [] →
  ∃ g, build_goal (VDict m) (VList (VDict <$> wps)) = Ok g
     ∧ (∀ w, send_mission (VDict m) w = dispatch g w)
     ∧ (∀ w s rest,
          action_server w = s :: rest →
          on_wait_for_server s = Returns tt →
          ∃ evs, trace (send_mission (VDict m) w).2 = trace w ++ evs
                 ∧ sent evs = [g])
     ∧ length (nav_waypoints g) = length wps
     ∧ ∀ i, nav_waypoints g !! i = to_waypoint <$> wps !! i.
Proof.
  intros Hm Hne. exists (goal_of m wps).
  split; [apply build_goal_dicts|].
  split; [intros w; by apply send_mission_dicts|].
  split.
  { intros w s rest Hs Hw. rewrite (send_mission_dicts _ _ _ Hm Hne).
    by apply (dispatch_submits _ _ s rest). }
  split; [apply length_fmap|].
  intros i. apply list_lookup_fmap.
Qed.

Lemma send_mission_preserves_waypoints_witness :
  ∃ g, build_goal (VDict mission_three) (VList (VDict <$> waypoints_three)) = Ok g
     ∧ send_mission (VDict mission_three) (initial [server_accepts])
       = dispatch g (initial [server_accepts])
     ∧ (∃ evs, trace (send_mission (VDict mission_three)
                        (initial [server_accepts])).2
               = trace (initial [server_accepts]) ++ evs
               ∧ sent evs = [g])
     ∧ length (nav_waypoints g) = 3
     ∧ ∀ i, nav_waypoints g !! i = to_waypoint <$> waypoints_three !! i.
Proof.
  destruct (send_mission_preserves_waypoints mission_three waypoints_three)
    as (g & Hb & Hs & Hsub & Hlen & Hi).
  - vm_compute. reflexivity.
  - discriminate.
  - exists g. split; [exact Hb|]. split; [apply Hs|].
    split; [|split; [exact Hlen|exact Hi]].
    apply (Hsub (initial [server_accepts]) server_accepts []); reflexivity.
Defined.

Lemma append_waypoints_ok_inv items g0 g :
  append_waypoints items g0 = Ok g →
  ∃ wps : list (gmap str value),
    items = VDict <$> wps
    ∧ g = set_nav_waypoints g0 (nav_waypoints g0 ++ (to_waypoint <$> wps)).
Proof.
  revert g0. induction items as [|wp items IH]; intros g0; simpl.
  - intros [= <-]. exists []. split; [done|]. simpl. rewrite app_nil_r.
    by destruct g0.
  - destruct wp; simpl; try done.
    intros H. apply IH in H as (wps & -> & ->).
    exists (m :: wps). split; [done|].
    unfold append_waypoint, set_nav_waypoints; simpl.
    by rewrite <- app_assoc.
Qed.

Lemma build_goal_ok_inv (m : gmap str value) waypoints g :
  no_waypoints waypoints = Ok false →
  build_goal (VDict m) waypoints = Ok g →
  ∃ wps : list (gmap str value),
    waypoints = VList (VDict <$> wps) ∧ wps ≠ [] ∧ g = goal_of m wps.
Proof.
  unfold no_waypoints, build_goal. cbn [py_get res_bind].
  destruct waypoints; simpl; try done.
  - (* a str: its items are strings *)
    destruct s as [|c s]; simpl; [done|]. done.
  - (* a list *)
    intros Hn H. apply append_waypoints_ok_inv in H as (wps & -> & ->).
    exists wps. split; [done|]. split; [|done].
    intros ->. done.
  - (* a dict: its items are its keys *)
    rename m0 into m'.
    destruct (map_to_list m') as [|[k v] l] eqn:Hl; simpl; [|done].
    apply map_to_list_empty_iff in Hl as ->. by rewrite map_size_empty.
Qed.

(** C5: whenever [send_mission] submits a goal, the mission is an object
    whose waypoints are objects, and in the submitted goal a missing
    [search_object] is 0, a missing [search_pattern] is 0, and for each
    waypoint object a missing [latitude] or [longitude] is 0.0 in the
    waypoint built from it. *)
Theorem dispatched_goal_defaults mission w evs i g :
  trace (send_mission mission w).2 = trace w ++ evs →
  evs !! i = Some (ESendGoal g) →
  ∃ (m : gmap str value) (wps : list (gmap str value)),
    mission = VDict m
    ∧ m !! k_nav_waypoints = Some (VList (VDict <$> wps))
    ∧ g = goal_of m wps
    ∧ (m !! k_search_object = None → search_object g = VInt 0)
    ∧ (m !! k_search_pattern = None → search_pattern g = VInt 0)
    ∧ ∀ j wm, wps !! j = Some wm →
        ∃ wp, nav_waypoints g !! j = Some wp
              ∧ (wm !! k_latitude = None → latitude wp = VFloat 0%float)
              ∧ (wm !! k_longitude = None → longitude wp = VFloat 0%float).
Proof.
  intros Htr Hi.
  destruct (send_mission mission w) as [o w'] eqn:Hsm. simpl in Htr.
  apply send_mission_cases in Hsm
    as [(e & -> & -> & _)|[(-> & ->)|(m & g0 & -> & Hn & Hb & Hd)]].
  - rewrite <- (app_nil_r (trace w)) in Htr at 1.
    apply app_inv_head in Htr as <-. done.
  - simpl in Htr. apply app_inv_head in Htr as <-.
    destruct i; simpl in Hi; [done|]. by destruct i.
  - apply dispatch_trace in Hd as (evs' & Htr' & _ & Hall).
    rewrite Htr' in Htr. apply app_inv_head in Htr as ->.
    assert (g = g0) as ->.
    { eapply Forall_lookup_1 in Hall; [|exact Hi]. done. }
    apply build_goal_ok_inv in Hb as (wps & Hw & Hne & ->); [|done].
    exists m, wps. split; [done|].
    split.
    { destruct (m !! k_nav_waypoints) as [v|]; simpl in Hw; [by rewrite Hw|].
      injection Hw as Hw. by destruct wps. }
    split; [done|].
    split; [intros H; simpl; by rewrite H|].
    split; [intros H; simpl; by rewrite H|].
    intros j wm Hj. exists (to_waypoint wm). simpl.
    rewrite list_lookup_fmap, Hj. split; [done|].
    split; intros H; by rewrite H.
Qed.

Lemma dispatched_goal_defaults_witness :
  ∃ (m : gmap str value) (wps : list (gmap str value)),
    VDict mission_three = VDict m
    ∧ m !! k_nav_waypoints = Some (VList (VDict <$> wps))
    ∧ goal_of mission_three waypoints_three = goal_of m wps
    ∧ (m !! k_search_object = None
       → search_object (goal_of mission_three waypoints_three) = VInt 0)
    ∧ (m !! k_search_pattern = None
       → search_pattern (goal_of mission_three waypoints_three) = VInt 0)
    ∧ ∀ j wm, wps !! j = Some wm →
        ∃ wp, nav_waypoints (goal_of mission_three waypoints_three) !! j = Some wp
              ∧ (wm !! k_latitude = None → latitude wp = VFloat 0%float)
              ∧ (wm !! k_longitude = None → longitude wp = VFloat 0%float).
Proof.
  apply (dispatched_goal_defaults (VDict mission_three)
           (initial [server_accepts])
           (dispatched (goal_of mission_three waypoints_three) 0 true) 2).
  - vm_compute. reflexivity.
  - reflexivity.
Defined.

(** The sample mission has no search pattern and its second waypoint no
    longitude: the goal carries 0 and 0.0 there. *)
Example defaults_three :
  goal_of mission_three waypoints_three
  = MkGoal (VInt 2) (VInt 0)
      [MkNavWaypoints (VFloat 1%float) (VFloat 2%float);
       MkNavWaypoints (VFloat 3.5%float) (VFloat 0%float);
       MkNavWaypoints (VFloat 5%float) (VFloat 4.25%float)].
Proof. vm_compute. reflexivity. Qed.

(** One waypoint and nothing else in the payload: the goal has 0 for both
    search fields and the waypoint (1.0, 2.0), and it is submitted. *)
Example one_waypoint_run :
  handle_connection Json.loads
    (one_chunk (Json.wire "{'nav_waypoints':[{'latitude':1.0,'longitude':2.0}]}"))
    (initial [server_accepts])
  = (Ret tt,
     let g := MkGoal (VInt 0) (VInt 0)
                [MkNavWaypoints (VFloat 1%float) (VFloat 2%float)] in
     World [EAccept 0 client;
            ELog INFO (msg_connection client);
            ERecv 0 (Chunk (Json.wire
              "{'nav_waypoints':[{'latitude':1.0,'longitude':2.0}]}"));
            ERecv 0 (Chunk []);
            ELog INFO (msg_received
              (VDict {[ k_nav_waypoints :=
                          VList [VDict {[ k_latitude := VFloat 1%float;
                                          k_longitude := VFloat 2%float ]}] ]}));
            ELog INFO msg_sending;
            EWaitForServer;
            ESendGoal g;
            ESpin 0;
            EFutureResult 0;
            ELog INFO (msg_sent (Some (GoalHandle 0 true)));
            EClose 0]
           1 []
           [GoalRecord g GAccepted [Idle; GoalFinished (VStr (str_of "done"))]]).
Proof. vm_compute. reflexivity. Qed.

(** ** Payloads that are dropped *)

(** C3: for a decoded mission object whose [nav_waypoints] is absent or
    the empty list, [send_mission] logs the warning and returns; handling
    a connection that carried such a payload returns normally, submits no
    goal (the goals submitted in the trace are those from before) and
    leaves the warning in the log. *)
Theorem no_waypoints_no_dispatch (json_loads : str → res value)
    (m : gmap str value) :
  (m !! k_nav_waypoints = None ∨ m !! k_nav_waypoints = Some (VList [])) →
  (∀ w, send_mission (VDict m) w
        = (Ret tt, add_events [ELog WARN msg_no_waypoints] w))
  ∧ ∀ c data w,
      accumulated (stream c) [] = Ok data →
      loads_utf8 json_loads data = Ok (VDict m) →
      let w' := handled c [ELog INFO (msg_received (VDict m));
                           ELog WARN msg_no_waypoints] w in
      handle_connection json_loads c w = (Ret tt, w')
      ∧ sent (trace w') = sent (trace w)
      ∧ goals w' = goals w.
Proof.
  intros Hm.
  assert (∀ w, send_mission (VDict m) w
               = (Ret tt, add_events [ELog WARN msg_no_waypoints] w)) as Hs.
  { intros w. apply (send_mission_falsy m (VList [])); [|done].
    by destruct Hm as [-> | ->]. }
  split; [done|].
  intros c data w Hd Hl w'. split; [|split].
  - by apply (handle_send_warns json_loads c data).
  - unfold w'. rewrite sent_handled. simpl. apply app_nil_r.
  - reflexivity.
Qed.

Lemma no_waypoints_no_dispatch_witness :
  let m := object_of (loads_utf8 Json.loads payload_absent) in
  let c := one_chunk payload_absent in
  let w := initial [server_accepts] in
  let w' := handled c [ELog INFO (msg_received (VDict m));
                       ELog WARN msg_no_waypoints] w in
  send_mission (VDict m) w = (Ret tt, add_events [ELog WARN msg_no_waypoints] w)
  ∧ handle_connection Json.loads c w = (Ret tt, w')
  ∧ sent (trace w') = sent (trace w)
  ∧ goals w' = goals w.
Proof.
  destruct (no_waypoints_no_dispatch Json.loads
              (object_of (loads_utf8 Json.loads payload_absent)))
    as [Hs Hc].
  - left. vm_compute. reflexivity.
  - split; [apply Hs|].
    apply (Hc (one_chunk payload_absent) payload_absent
              (initial [server_accepts])).
    + reflexivity.
    + vm_compute. reflexivity.
Defined.

(** The empty-list payload, end to end: a warning, the socket closed, no
    call on the action client. *)
Example empty_waypoints_run :
  handle_connection Json.loads (one_chunk payload_empty) (initial [server_accepts])
  = (Ret tt,
     World [EAccept 0 client;
            ELog INFO (msg_connection client);
            ERecv 0 (Chunk payload_empty);
            ERecv 0 (Chunk []);
            ELog INFO (msg_received (VDict {[ k_nav_waypoints := VList [] ]}));
            ELog WARN msg_no_waypoints;
            EClose 0]
           1 [server_accepts] []).
Proof. vm_compute. reflexivity. Qed.

(** C10: when [nav_waypoints] is present but bound to a falsy value
    ([None], [False], 0, 0.0, the empty string, list or dict),
    [send_mission] logs the no-waypoints warning and returns, without
    raising and without a dispatch: exactly what it does when the key is
    bound to the empty list. *)
Theorem falsy_waypoints_like_empty (m : gmap str value) (v : value) (w : world) :
  m !! k_nav_waypoints = Some v →
  truthy v = false →
  send_mission (VDict m) w = (Ret tt, add_events [ELog WARN msg_no_waypoints] w)
  ∧ send_mission (VDict m) w
    = send_mission (VDict (<[k_nav_waypoints := VList []]> m)) w.
Proof.
  intros Hm Hv.
  assert (send_mission (VDict m) w
          = (Ret tt, add_events [ELog WARN msg_no_waypoints] w)) as Hs.
  { apply (send_mission_falsy m v); [by rewrite Hm|done]. }
  split; [done|]. rewrite Hs. symmetry.
  apply (send_mission_falsy _ (VList [])); [|done].
  by rewrite lookup_insert_eq.
Qed.

Lemma falsy_waypoints_like_empty_witness :
  send_mission (VDict (object_of (loads_utf8 Json.loads payload_null)))
    (initial [server_accepts])
  = (Ret tt, add_events [ELog WARN msg_no_waypoints] (initial [server_accepts]))
  ∧ send_mission (VDict (object_of (loads_utf8 Json.loads payload_null)))
      (initial [server_accepts])
    = send_mission
        (VDict (<[k_nav_waypoints := VList []]>
                  (object_of (loads_utf8 Json.loads payload_null))))
        (initial [server_accepts]).
Proof.
  apply (falsy_waypoints_like_empty
           (object_of (loads_utf8 Json.loads payload_null)) VNone
           (initial [server_accepts])).
  - vm_compute. reflexivity.
  - reflexivity.
Defined.

(** The falsy values among those [json.loads] returns. *)
Example falsy_values :
  truthy VNone = false ∧ truthy (VBool false) = false
  ∧ truthy (VInt 0) = false ∧ truthy (VFloat 0%float) = false
  ∧ truthy (VFloat (-0)%float) = false
  ∧ truthy (VStr []) = false ∧ truthy (VList []) = false
  ∧ truthy (VDict ∅) = false.
Proof. repeat split; reflexivity. Qed.

(** ** Malformed payloads *)

Lemma decode_throw data e : Utf8.decode data = Throw e → e = Utf8.decode_error.
Proof.
  unfold Utf8.decode. destruct (Utf8.decode_N _); [done|]. by intros [= <-].
Qed.

(** C4: when the accumulated bytes are not valid UTF-8, or are valid
    UTF-8 but not valid JSON, handling the connection logs the error,
    closes the socket and returns normally without any goal submission,
    and the loop goes on with whatever arrives next. *)
Theorem malformed_payload_dropped (json_loads : str → res value)
    (c : connection) (rest : list arrival) (w : world) (data : bytes) (e : exn) :
  accumulated (stream c) [] = Ok data →
  (Utf8.decode data = Throw e
   ∨ ∃ text, Utf8.decode data = Ok text ∧ json_loads text = Throw e
             ∧ exn_cls e = JSONDecodeError) →
  let w' := handled c [ELog ERROR (msg_failed e)] w in
  handle_connection json_loads c w = (Ret tt, w')
  ∧ sent (trace w') = sent (trace w)
  ∧ goals w' = goals w
  ∧ run json_loads (Connect c :: rest) w = run json_loads rest w'.
Proof.
  intros Hd He w'.
  assert (loads_utf8 json_loads data = Throw e ∧ is_Exception e = true)
    as [Hl Hexn].
  { unfold loads_utf8. destruct He as [He|(text & Ht & Hj & Hc)].
    - rewrite He. split; [done|]. by rewrite (decode_throw _ _ He).
    - rewrite Ht. simpl. split; [done|]. unfold is_Exception. by rewrite Hc. }
  assert (handle_connection json_loads c w = (Ret tt, w')) as Hh
    by by apply (handle_decode_error json_loads c data).
  split; [done|]. split; [|split; [done|]].
  - unfold w'. rewrite sent_handled. simpl. apply app_nil_r.
  - by apply run_connect.
Qed.

Lemma malformed_payload_dropped_witness :
  let c := two_chunks 3 payload_not_json in
  let e := Json.expecting_value in
  let w := initial [server_accepts] in
  let rest := [Connect (one_chunk payload_not_utf8)] in
  let w' := handled c [ELog ERROR (msg_failed e)] w in
  handle_connection Json.loads c w = (Ret tt, w')
  ∧ sent (trace w') = sent (trace w)
  ∧ goals w' = goals w
  ∧ run Json.loads (Connect c :: rest) w = run Json.loads rest w'.
Proof.
  apply (malformed_payload_dropped Json.loads
           (two_chunks 3 payload_not_json)
           [Connect (one_chunk payload_not_utf8)]
           (initial [server_accepts]) payload_not_json Json.expecting_value).
  - reflexivity.
  - right. exists (str_of "not-json"). repeat split; reflexivity.
Defined.

(** Invalid UTF-8 then invalid JSON on two successive connections: two
    error lines, both sockets closed, and the loop is back in [accept]. *)
Example malformed_run :
  run Json.loads [Connect (one_chunk payload_not_utf8);
                  Connect (one_chunk payload_not_json)]
      (initial [server_accepts])
  = (Hang,
     World [EAccept 0 client;
            ELog INFO (msg_connection client);
            ERecv 0 (Chunk payload_not_utf8);
            ERecv 0 (Chunk []);
            ELog ERROR (msg_failed Utf8.decode_error);
            EClose 0;
            EAccept 1 client;
            ELog INFO (msg_connection client);
            ERecv 1 (Chunk payload_not_json);
            ERecv 1 (Chunk []);
            ELog ERROR (msg_failed Json.expecting_value);
            EClose 1]
           2 [server_accepts] []).
Proof. vm_compute. reflexivity. Qed.

(** C9: when the bytes decode to JSON that is not an object, or to an
    object whose [nav_waypoints] is a non-empty container (a list, or a
    string or object, which iterate over strings) with an element that is
    not an object, field extraction raises [AttributeError]; the handler
    of the connection catches it like a decode error: it is logged at
    error level, no goal is submitted, the socket is closed and the loop
    goes on with whatever arrives next. *)
Theorem bad_shape_caught (json_loads : str → res value)
    (c : connection) (rest : list arrival) (w : world) (data : bytes)
    (mission : value) :
  accumulated (stream c) [] = Ok data →
  loads_utf8 json_loads data = Ok mission →
  (is_dict mission = false
   ∨ ∃ (m : gmap str value) waypoints items,
       mission = VDict m ∧ m !! k_nav_waypoints = Some waypoints
       ∧ py_iter waypoints = Ok items
       ∧ Exists (λ x, is_dict x = false) items) →
  ∃ e, exn_cls e = AttributeError
    ∧ let w' := handled c [ELog INFO (msg_received mission);
                           ELog ERROR (msg_failed e)] w in
      handle_connection json_loads c w = (Ret tt, w')
      ∧ sent (trace w') = sent (trace w)
      ∧ goals w' = goals w
      ∧ run json_loads (Connect c :: rest) w = run json_loads rest w'.
Proof.
  intros Hd Hl Hshape.
  assert (∃ e, exn_cls e = AttributeError
               ∧ ∀ w1, send_mission mission w1 = (Raise e, w1))
    as (e & Hcls & Hs).
  { destruct Hshape as [Hnd|(m & waypoints & items & -> & Hm & Hit & Hex)].
    - exists (no_attribute mission "get"). split; [done|].
      intros w1. apply send_mission_not_dict. intros m ->. done.
    - destruct (send_mission_bad_items m waypoints items Hm Hit Hex)
        as (x & _ & _ & Hx).
      by exists (no_attribute x "get"). }
  exists e. split; [done|]. intros w'.
  assert (handle_connection json_loads c w = (Ret tt, w')) as Hh.
  { apply (handle_send_raises json_loads c data mission e); try done.
    unfold is_Exception. by rewrite Hcls. }
  split; [done|]. split; [|split; [done|]].
  - unfold w'. rewrite sent_handled. simpl. apply app_nil_r.
  - by apply run_connect.
Qed.

Lemma bad_shape_caught_witness :
  ∃ e, exn_cls e = AttributeError
    ∧ let w' := handled (one_chunk payload_bad_items)
                  [ELog INFO (msg_received mission_bad_items);
                   ELog ERROR (msg_failed e)] (initial [server_accepts]) in
      handle_connection Json.loads (one_chunk payload_bad_items)
        (initial [server_accepts]) = (Ret tt, w')
      ∧ sent (trace w') = sent (trace (initial [server_accepts]))
      ∧ goals w' = goals (initial [server_accepts])
      ∧ run Json.loads
          (Connect (one_chunk payload_bad_items)
             :: [Connect (one_chunk payload_array)])
          (initial [server_accepts])
        = run Json.loads [Connect (one_chunk payload_array)] w'.
Proof.
  apply (bad_shape_caught Json.loads (one_chunk payload_bad_items)
           [Connect (one_chunk payload_array)] (initial [server_accepts])
           payload_bad_items mission_bad_items).
  - reflexivity.
  - vm_compute. reflexivity.
  - right.
    exists (object_of (loads_utf8 Json.loads payload_bad_items)),
           (VList [VDict {[ k_latitude := VFloat 1%float ]}; VInt 7]),
           [VDict {[ k_latitude := VFloat 1%float ]}; VInt 7].
    split; [reflexivity|]. split; [vm_compute; reflexivity|].
    split; [reflexivity|].
    apply Exists_cons_tl, Exists_cons_hd. reflexivity.
Defined.

(** A JSON array, then an object whose second waypoint is a number: both
    end in an [AttributeError] that is logged; the action client is never
    called. *)
Example bad_shape_run :
  run Json.loads [Connect (one_chunk payload_array);
                  Connect (one_chunk payload_bad_items)]
      (initial [server_accepts])
  = (Hang,
     World [EAccept 0 client;
            ELog INFO (msg_connection client);
            ERecv 0 (Chunk payload_array);
            ERecv 0 (Chunk []);
            ELog INFO (msg_received (VList [VInt 1; VInt 2]));
            ELog ERROR (msg_failed
              (Exn AttributeError "'list' object has no attribute 'get'"));
            EClose 0;
            EAccept 1 client;
            ELog INFO (msg_connection client);
            ERecv 1 (Chunk payload_bad_items);
            ERecv 1 (Chunk []);
            ELog INFO (msg_received mission_bad_items);
            ELog ERROR (msg_failed
              (Exn AttributeError "'int' object has no attribute 'get'"));
            EClose 1]
           2 [server_accepts] []).
Proof. vm_compute. reflexivity. Qed.

(** ** Dispatch *)

(** C2, as the code has it: for a mission with at least one waypoint
    object, once the server is up and the goal is submitted,
    [send_mission] spins exactly until the send-goal future completes,
    that is until the server accepts or rejects the goal, and returns; the
    value it logs is that future's result, the goal handle with its
    accepted flag.  What the executor would process after the response,
    the completion of the goal included, is left pending, and the goal is
    recorded as accepted or rejected.  Conversely a normal return of
    [send_mission] always has this form. *)
Theorem dispatch_waits_for_response
    (m : gmap str value) (wps : list (gmap str value)) :
  m !! k_nav_waypoints = Some (VList (VDict <$> wps)) →
  wps ≠ [] →
  (∀ w s rest pre accepted pend,
      action_server w = s :: rest →
      on_wait_for_server s = Returns tt →
      on_send_goal_async s = Returns tt →
      on_spin s = pre ++ GoalResponse accepted :: pend →
      Forall quiet pre →
      send_mission (VDict m) w
      = (Ret tt,
         World (trace w ++ dispatched (goal_of m wps) (length (goals w)) accepted)
               (next_fd w) rest
               (goals w ++ [GoalRecord (goal_of m wps)
                              (response_status accepted) pend])))
  ∧ (∀ w w',
      send_mission (VDict m) w = (Ret tt, w') →
      ∃ s rest pre accepted pend,
        action_server w = s :: rest
        ∧ on_spin s = pre ++ GoalResponse accepted :: pend
        ∧ w' = World (trace w ++ dispatched (goal_of m wps)
                                   (length (goals w)) accepted)
                     (next_fd w) rest
                     (goals w ++ [GoalRecord (goal_of m wps)
                                    (response_status accepted) pend])).
Proof.
  intros Hm Hne. split.
  - intros w s rest pre accepted pend Hs Hw Hsend Hspin Hq.
    rewrite (send_mission_dicts _ _ _ Hm Hne).
    by apply (dispatch_response _ _ s rest pre).
  - intros w w' H. rewrite (send_mission_dicts _ _ _ Hm Hne) in H.
    by apply dispatch_ret_inv.
Qed.

Lemma dispatch_waits_for_response_witness :
  let g := goal_of mission_three waypoints_three in
  let w' := World (dispatched g 0 true) 0 []
              [GoalRecord g GAccepted
                 [Idle; GoalFinished (VStr (str_of "done"))]] in
  send_mission (VDict mission_three) (initial [server_accepts]) = (Ret tt, w')
  ∧ ∃ s rest pre accepted pend,
      action_server (initial [server_accepts]) = s :: rest
      ∧ on_spin s = pre ++ GoalResponse accepted :: pend
      ∧ w' = World (trace (initial [server_accepts])
                      ++ dispatched g (length (goals (initial [server_accepts])))
                           accepted)
                   (next_fd (initial [server_accepts])) rest
                   (goals (initial [server_accepts])
                      ++ [GoalRecord g (response_status accepted) pend]).
Proof.
  destruct (dispatch_waits_for_response mission_three waypoints_three)
    as [Hfwd Hinv].
  - vm_compute. reflexivity.
  - discriminate.
  - assert (send_mission (VDict mission_three) (initial [server_accepts])
            = (Ret tt,
               World (dispatched (goal_of mission_three waypoints_three) 0 true)
                     0 []
                     [GoalRecord (goal_of mission_three waypoints_three) GAccepted
                        [Idle; GoalFinished (VStr (str_of "done"))]])) as Hrun.
    { apply (Hfwd (initial [server_accepts]) server_accepts [] [Idle] true
                  [Idle; GoalFinished (VStr (str_of "done"))]);
        try reflexivity.
      repeat constructor. }
    split; [exact Hrun|]. exact (Hinv _ _ Hrun).
Defined.

(** C2 as stated fails: with a server that accepts the goal and completes
    it later, [send_mission] returns as soon as the goal is accepted: the
    goal is recorded as accepted, its completion is still pending, and
    the log line carries the goal handle. *)
Lemma awaits_completion_counterexample :
  send_mission (VDict mission_three) (initial [server_accepts])
  = (Ret tt,
     World (dispatched (goal_of mission_three waypoints_three) 0 true) 0 []
           [GoalRecord (goal_of mission_three waypoints_three) GAccepted
              [Idle; GoalFinished (VStr (str_of "done"))]])
  ∧ ¬ awaits_completion.
Proof.
  assert (send_mission (VDict mission_three) (initial [server_accepts])
          = (Ret tt,
             World (dispatched (goal_of mission_three waypoints_three) 0 true) 0 []
               [GoalRecord (goal_of mission_three waypoints_three) GAccepted
                  [Idle; GoalFinished (VStr (str_of "done"))]])) as Hrun
    by (vm_compute; reflexivity).
  split; [exact Hrun|].
  intros Hclaim.
  destruct (Hclaim mission_three waypoints_three _ _
              ltac:(vm_compute; reflexivity) ltac:(discriminate) Hrun)
    as (outcome & Hst & _).
  simpl in Hst. discriminate.
Qed.

(** Had the executor gone on after the acceptance, the goal would have
    been seen to finish: the model's goal can complete, the bridge does
    not wait for it. *)
Example completion_is_observable :
  spin_once (GoalFinished (VStr (str_of "done"))) GAccepted
  = GFinished (VStr (str_of "done")).
Proof. reflexivity. Qed.

(** ** Errors of one connection *)

(** C6, as the code has it: handling a connection and going on is a total
    function of what the connection and the action client do.  When the
    peer's stream ends, also early, the bytes accumulated so far go to the
    translator; an exception deriving from [Exception] raised by decoding
    or by any step of the dispatch is caught, logged at error level, and
    the loop goes on with the next arrival.  An exception raised by
    [recv] is outside the [try]: the socket is closed, nothing is decoded
    or logged, and the exception leaves [run]. *)
Theorem per_connection_errors (json_loads : str → res value)
    (c : connection) (rest : list arrival) (w : world) :
  run json_loads (Connect c :: rest) w
  = match accumulated (stream c) [] with
    | Throw e =>
      (Raise e, add_events [EClose (next_fd w)] (accepted_world c w))
    | Ok data =>
      match translate json_loads data (accepted_world c w) with
      | (Ret _, w2) => run json_loads rest (add_events [EClose (next_fd w)] w2)
      | (Raise e, w2) =>
        if is_Exception e
        then run json_loads rest
               (add_events [ELog ERROR (msg_failed e); EClose (next_fd w)] w2)
        else (Raise e, add_events [EClose (next_fd w)] w2)
      | (Hang, w2) => (Hang, w2)
      end
    end.
Proof.
  cbn [run]. unfold bind at 1. rewrite handle_connection_eq.
  destruct (accumulated (stream c) []) as [data|e]; [|done].
  unfold process, try_except.
  destruct (translate json_loads data (accepted_world c w)) as [[[]|e|] w2];
    try done.
  destruct (is_Exception e); [|done].
  unfold log. rewrite emit_add. cbv beta iota.
  by rewrite add_events_app.
Qed.

(** A dispatch-time failure (the submission call raises) is logged and
    the next connection is served. *)
Example dispatch_failure_run :
  run Json.loads [Connect (one_chunk payload_three);
                  Connect (one_chunk payload_empty)]
      (initial [server_refuses; server_accepts])
  = (Hang,
     World [EAccept 0 client;
            ELog INFO (msg_connection client);
            ERecv 0 (Chunk payload_three);
            ERecv 0 (Chunk []);
            ELog INFO (msg_received (VDict mission_three));
            ELog INFO msg_sending;
            EWaitForServer;
            ESendGoal (goal_of mission_three waypoints_three);
            ELog ERROR (msg_failed (Exn RuntimeError "failed to send goal"));
            EClose 0;
            EAccept 1 client;
            ELog INFO (msg_connection client);
            ERecv 1 (Chunk payload_empty);
            ERecv 1 (Chunk []);
            ELog INFO (msg_received (VDict {[ k_nav_waypoints := VList [] ]}));
            ELog WARN msg_no_waypoints;
            EClose 1]
           2 [server_accepts] []).
Proof. vm_compute. reflexivity. Qed.

(** C6 as stated fails: when the peer resets the connection during the
    read loop, [run] ends with that exception: the bytes received are not
    decoded, nothing is logged for them, and the connection that comes
    next is never accepted; [main] ends with the same exception after its
    cleanup. *)
Lemma read_error_counterexample :
  run Json.loads [Connect broken; Connect (one_chunk payload_three)]
      (initial [server_accepts])
  = (Raise conn_reset,
     World [EAccept 0 client;
            ELog INFO (msg_connection client);
            ERecv 0 (Chunk (take 20 payload_three));
            ERecv 0 (RecvError conn_reset);
            EClose 0]
           1 [server_accepts] [])
  ∧ fst (main Json.loads [Connect broken; Connect (one_chunk payload_three)]
           (initial [server_accepts]))
    = Raise conn_reset
  ∧ ¬ read_error_survived Json.loads.
Proof.
  split; [vm_compute; reflexivity|]. split; [vm_compute; reflexivity|].
  intros Hclaim.
  destruct (Hclaim broken [take 20 payload_three] conn_reset [] []
              (initial [server_accepts]) eq_refl) as (o & w2 & _ & Hrun).
  { repeat constructor. discriminate. }
  assert (run Json.loads [Connect broken] (initial [server_accepts])
          = (Raise conn_reset,
             add_events [EClose 0] (accepted_world broken (initial [server_accepts]))))
    as Hraise by (vm_compute; reflexivity).
  rewrite Hraise in Hrun. discriminate Hrun.
Qed.

(** ** One connection at a time *)

Lemma dispatch_event_no_socket g evs :
  Forall (dispatch_event g) evs → Forall no_socket evs.
Proof. intros H. eapply Forall_impl; [exact H|]. by intros []. Qed.

Lemma translate_trace (json_loads : str → res value) data w o w' :
  translate json_loads data w = (o, w') →
  ∃ evs, trace w' = trace w ++ evs ∧ next_fd w' = next_fd w
    ∧ Forall no_socket evs
    ∧ (o = Ret tt → ∃ pre ev, evs = pre ++ [ev]
         ∧ (ev = ELog WARN msg_no_waypoints ∨ ∃ r, ev = ELog INFO (msg_sent r))).
Proof.
  unfold translate, bind, lift.
  destruct (loads_utf8 json_loads data) as [mission|e]; simpl.
  2:{ intros [= <- <-]. exists []. rewrite app_nil_r. by repeat split. }
  destruct (send_mission mission _) as [o1 w1] eqn:Hs.
  intros [= <- <-].
  apply send_mission_cases in Hs
    as [(e & -> & -> & _)|[(-> & ->)|(m & g & -> & _ & _ & Hd)]].
  - exists [ELog INFO (msg_received mission)]. simpl.
    repeat split; [by repeat constructor|done].
  - exists [ELog INFO (msg_received mission); ELog WARN msg_no_waypoints].
    simpl. rewrite <- app_assoc. repeat split; [by repeat constructor|].
    intros _. exists [ELog INFO (msg_received mission)], (ELog WARN msg_no_waypoints).
    split; [done|by left].
  - pose proof Hd as Hd'.
    apply dispatch_trace in Hd as (evs & Htr & Hfd & Hall).
    exists (ELog INFO (msg_received (VDict m)) :: evs).
    simpl in Htr, Hfd. rewrite Htr, <- app_assoc.
    repeat split; [done|constructor; [done|by eapply dispatch_event_no_socket]|].
    intros ->. apply dispatch_ret_inv in Hd'
      as (s & rest & pre & accepted & pend & _ & _ & ->).
    simpl in Htr. rewrite <- !app_assoc in Htr. apply app_inv_head in Htr.
    simpl in Htr. injection Htr as <-.
    exists [ELog INFO (msg_received (VDict m)); ELog INFO msg_sending;
            EWaitForServer; ESendGoal g; ESpin (length (goals w));
            EFutureResult (length (goals w))],
           (ELog INFO (msg_sent (Some (GoalHandle (length (goals w)) accepted)))).
    split; [done|]. right. by eexists.
Qed.

Lemma process_trace (json_loads : str → res value) data w o w' :
  process json_loads data w = (o, w') →
  ∃ evs, trace w' = trace w ++ evs ∧ next_fd w' = next_fd w
    ∧ Forall no_socket evs
    ∧ (o = Ret tt → ∃ pre ev, evs = pre ++ [ev] ∧ final_report ev).
Proof.
  unfold process, try_except.
  destruct (translate json_loads data w) as [o1 w1] eqn:Ht.
  apply translate_trace in Ht as (evs & Htr & Hfd & Hall & Hret).
  destruct o1 as [[]|e|].
  - intros [= <- <-]. exists evs. repeat split; try done.
    intros _. destruct (Hret eq_refl) as (pre & ev & -> & Hev).
    exists pre, ev. split; [done|].
    destruct Hev as [->|[r ->]]; [by left|right; left; by eexists].
  - destruct (is_Exception e).
    + intros [= <- <-]. exists (evs ++ [ELog ERROR (msg_failed e)]).
      simpl. rewrite Htr, <- app_assoc. repeat split; try done.
      * apply Forall_app. split; [done|by repeat constructor].
      * intros _. exists evs, (ELog ERROR (msg_failed e)).
        split; [done|]. right; right. by eexists.
    + intros [= <- <-]. exists evs. by repeat split.
  - intros [= <- <-]. exists evs. by repeat split.
Qed.

Lemma recv_events_own fd stream :
  Forall (own_event fd) (recv_events fd stream).
Proof.
  induction stream as [|[[|b chunk]|e] stream IH]; simpl;
    by repeat constructor.
Qed.

Lemma no_socket_own fd evs : Forall no_socket evs → Forall (own_event fd) evs.
Proof. intros H. eapply Forall_impl; [exact H|]. by intros []. Qed.




(** Two connections back to back: the first mission is dispatched and its
    result logged, the first socket closed, and only then is the second
    connection accepted and read. *)
Example back_to_back_run :
  run Json.loads back_to_back (initial [server_accepts])
  = (Hang,
     World [EAccept 0 client;
            ELog INFO (msg_connection client);
            ERecv 0 (Chunk payload_three);
            ERecv 0 (Chunk []);
            ELog INFO (msg_received (VDict mission_three));
            ELog INFO msg_sending;
            EWaitForServer;
            ESendGoal (goal_of mission_three waypoints_three);
            ESpin 0;
            EFutureResult 0;
            ELog INFO (msg_sent (Some (GoalHandle 0 true)));
            EClose 0;
            EAccept 1 client;
            ELog INFO (msg_connection client);
            ERecv 1 (Chunk (take 5 payload_empty));
            ERecv 1 (Chunk (drop 5 payload_empty));
            ERecv 1 (Chunk []);
            ELog INFO (msg_received (VDict {[ k_nav_waypoints := VList [] ]}));
            ELog WARN msg_no_waypoints;
            EClose 1]
           2 []
           [GoalRecord (goal_of mission_three waypoints_three) GAccepted
              [Idle; GoalFinished (VStr (str_of "done"))]]).
Proof. vm_compute. reflexivity. Qed.

(** ** Framing: end of stream against first newline *)

(** X4: the bridge reads to the end of the stream: with non-empty chunks
    followed by an empty [recv], it ends with their concatenation, having
    received every chunk and the empty one, whatever the chunks contain;
    what the stream holds after the empty [recv] is never received. *)
Lemma recv_all_until_eof fd (chunks : list bytes) (tail : list recv_result) w :
  Forall (λ chunk, chunk ≠ []) chunks →
  recv_all fd ((Chunk <$> chunks) ++ Chunk [] :: tail) [] w
  = (Ret (concat chunks),
     add_events (((λ chunk, ERecv fd (Chunk chunk)) <$> chunks)
                   ++ [ERecv fd (Chunk [])]) w).
Proof.
  intros Hne. rewrite recv_all_eq.
  assert (recv_events fd ((Chunk <$> chunks) ++ Chunk [] :: tail)
          = ((λ chunk, ERecv fd (Chunk chunk)) <$> chunks)
              ++ [ERecv fd (Chunk [])]) as ->.
  { induction Hne as [|chunk chunks Hc _ IH]; [done|].
    destruct chunk; [done|]. rewrite !fmap_cons. cbn [app recv_events].
    by rewrite IH. }
  assert (∀ acc, accumulated ((Chunk <$> chunks) ++ Chunk [] :: tail) acc
                 = Ok (acc ++ concat chunks)) as ->.
  { induction Hne as [|chunk chunks Hc _ IH]; intros acc; simpl.
    - by rewrite app_nil_r.
    - destruct chunk; [done|]. rewrite IH. by rewrite <- app_assoc. }
  reflexivity.
Qed.

(** C8: the bridge reads to the end of the stream and decodes all of it;
    the diagnostic server stops reading after a first chunk whose text
    contains a newline and parses the stripped text of that chunk, all of
    it.  So when the first chunk contains a newline and more non-empty
    chunks follow before the peer closes, the text the bridge decodes is
    the text of the first chunk extended by the text of the later chunks:
    it is never the text the diagnostic server parses, and the two differ
    by more than surrounding whitespace exactly when the later chunks do
    not hold whitespace only.  When the stream ends right after the first
    chunk, whatever that chunk holds after its newline is kept by both:
    the bridge decodes the text of which the diagnostic server parses the
    stripped form. *)
Theorem framing_differs (fd : nat) (c1 c2 : bytes) (chunks : list bytes)
    (s1 : str) (tail : list recv_result) (w : world) :
  Utf8.decode c1 = Ok s1 →
  has_newline s1 = true →
  c2 ≠ [] →
  Forall (λ chunk, chunk ≠ []) chunks →
  Diag.recv_line fd (closed_stream (c1 :: c2 :: chunks) tail) [] w
  = (Ret s1, add_events [ERecv fd (Chunk c1)] w)
  ∧ recv_all fd (closed_stream (c1 :: c2 :: chunks) tail) [] w
    = (Ret (c1 ++ c2 ++ concat chunks),
       add_events (recvs fd (c1 :: c2 :: chunks) ++ [ERecv fd (Chunk [])]) w)
  ∧ (∀ t, Utf8.decode (c1 ++ c2 ++ concat chunks) = Ok t →
       ∃ t2, Utf8.decode (c2 ++ concat chunks) = Ok t2
         ∧ t2 ≠ []
         ∧ t = s1 ++ t2
         ∧ t ≠ strip s1
         ∧ (strip t = strip s1 ↔ forallb is_space t2 = true))
  ∧ Diag.recv_line fd (closed_stream [c1] tail) [] w
    = (Ret s1, add_events [ERecv fd (Chunk c1)] w)
  ∧ recv_all fd (closed_stream [c1] tail) [] w
    = (Ret c1, add_events [ERecv fd (Chunk c1); ERecv fd (Chunk [])] w).
Proof.
  intros Hdec Hnl Hc2 Hne.
  assert (s1 ≠ []) as Hs1 by (by intros ->).
  assert (c1 ≠ []) as Hc1.
  { intros ->. by injection Hdec as <-. }
  assert (∀ later, Diag.recv_line fd (Chunk c1 :: later) [] w
                   = (Ret s1, add_events [ERecv fd (Chunk c1)] w)) as Hdiag.
  { intros later. cbn [Diag.recv_line]. unfold bind at 1. rewrite emit_add.
    unfold bind, lift. rewrite Hdec. simpl.
    destruct s1 as [|c s1]; [done|]. by rewrite Hnl. }
  split; [apply Hdiag|]. split; [|split; [|split; [apply Hdiag|]]].
  - rewrite recv_all_eq, accumulated_closed, recv_events_closed;
      [done|by repeat constructor..].
  - intros t Ht.
    destruct (decode_app_inv _ _ _ _ Hdec Ht) as (t2 & Ht2 & ->).
    assert (t2 ≠ []) as Hne2.
    { apply (decode_nonempty (c2 ++ concat chunks)); [|done].
      destruct c2; [done|]. done. }
    exists t2. split; [done|]. split; [done|]. split; [done|]. split.
    + intros Heq. pose proof (strip_length s1) as Hlen.
      rewrite <- Heq, length_app in Hlen.
      destruct t2; [done|]. simpl in Hlen. lia.
    + split.
      * intros Heq. destruct (forallb is_space t2) eqn:Hsp; [done|].
        pose proof (strip_app_text s1 t2 Hsp) as Hlt. rewrite Heq in Hlt. lia.
      * apply strip_app_spaces.
  - rewrite recv_all_eq, accumulated_closed, recv_events_closed;
      [|by repeat constructor..].
    simpl. by rewrite app_nil_r.
Qed.

Lemma framing_differs_witness :
  let text := Json.text "{'nav_waypoints': []}" ++ [10%N] in
  Diag.recv_line 0 (closed_stream [first_line; second_line] []) [] (initial [])
  = (Ret text, add_events [ERecv 0 (Chunk first_line)] (initial []))
  ∧ recv_all 0 (closed_stream [first_line; second_line] []) [] (initial [])
    = (Ret (first_line ++ second_line ++ concat []),
       add_events (recvs 0 [first_line; second_line] ++ [ERecv 0 (Chunk [])])
         (initial []))
  ∧ (∀ t, Utf8.decode (first_line ++ second_line ++ concat []) = Ok t →
       ∃ t2, Utf8.decode (second_line ++ concat []) = Ok t2
         ∧ t2 ≠ []
         ∧ t = text ++ t2
         ∧ t ≠ strip text
         ∧ (strip t = strip text ↔ forallb is_space t2 = true))
  ∧ Diag.recv_line 0 (closed_stream [first_line] []) [] (initial [])
    = (Ret text, add_events [ERecv 0 (Chunk first_line)] (initial []))
  ∧ recv_all 0 (closed_stream [first_line] []) [] (initial [])
    = (Ret first_line,
       add_events [ERecv 0 (Chunk first_line); ERecv 0 (Chunk [])] (initial [])).
Proof.
  apply (framing_differs 0 first_line second_line []
           (Json.text "{'nav_waypoints': []}" ++ [10%N]) [] (initial [])).
  - reflexivity.
  - reflexivity.
  - discriminate.
  - constructor.
Defined.

(** C8 as stated fails: a first chunk with data on both sides of a
    newline, after which the peer closes.  The diagnostic server stops
    reading at that chunk but keeps all of its text, so both servers hand
    [json.loads] the same text. *)
Lemma framing_counterexample :
  (Diag.recv_line 0 [Chunk one_chunk_two_lines; Chunk []] [] (initial [])
   = (Ret (Json.text "{'nav_waypoints': []}" ++ [10%N]
             ++ Json.text "{'search_object': 1}"),
      add_events [ERecv 0 (Chunk one_chunk_two_lines)] (initial []))
   ∧ recv_all 0 [Chunk one_chunk_two_lines; Chunk []] [] (initial [])
     = (Ret one_chunk_two_lines,
        add_events [ERecv 0 (Chunk one_chunk_two_lines); ERecv 0 (Chunk [])]
          (initial []))
   ∧ Utf8.decode one_chunk_two_lines
     = Ok (strip (Json.text "{'nav_waypoints': []}" ++ [10%N]
                    ++ Json.text "{'search_object': 1}")))
  ∧ ¬ framing_always_differs.
Proof.
  assert (Diag.recv_line 0 [Chunk one_chunk_two_lines; Chunk []] [] (initial [])
          = (Ret (Json.text "{'nav_waypoints': []}" ++ [10%N]
                    ++ Json.text "{'search_object': 1}"),
             add_events [ERecv 0 (Chunk one_chunk_two_lines)] (initial [])))
    as Hdiag by (vm_compute; reflexivity).
  assert (recv_all 0 [Chunk one_chunk_two_lines; Chunk []] [] (initial [])
          = (Ret one_chunk_two_lines,
             add_events [ERecv 0 (Chunk one_chunk_two_lines); ERecv 0 (Chunk [])]
               (initial [])))
    as Hbridge by (vm_compute; reflexivity).
  assert (Utf8.decode one_chunk_two_lines
          = Ok (strip (Json.text "{'nav_waypoints': []}" ++ [10%N]
                         ++ Json.text "{'search_object': 1}")))
    as Hsame by (vm_compute; reflexivity).
  split; [by split_and!|].
  intros Hclaim.
  apply (Hclaim 0 one_chunk_two_lines
                (Json.text "{'nav_waypoints': []}")
                (Json.text "{'search_object': 1}")
                [Chunk []] (initial []) _ _ _ _
                ltac:(vm_compute; reflexivity) ltac:(discriminate)
                Hdiag Hbridge).
  exact Hsame.
Qed.

(** The same connection under both servers with the reference decoder:
    the diagnostic server parses the first line and prints the mission;
    the bridge decodes both lines at once, which is not JSON, and logs an
    error. *)
Example two_lines_diag :
  Diag.handle_connection Json.loads two_lines (initial [])
  = (Ret tt,
     World [EAccept 0 client;
            EPrint [FStr [10%N]; FText "[CONNECTED] "; FAddr client];
            ERecv 0 (Chunk first_line);
            EPrint [FText "[RECEIVED MISSION]:"];
            EPrint [FValue (VDict {[ k_nav_waypoints := VList [] ]})];
            EClose 0]
           1 [] []).
Proof. vm_compute. reflexivity. Qed.

Example two_lines_bridge :
  handle_connection Json.loads two_lines (initial [])
  = (Ret tt,
     World [EAccept 0 client;
            ELog INFO (msg_connection client);
            ERecv 0 (Chunk first_line);
            ERecv 0 (Chunk second_line);
            ERecv 0 (Chunk []);
            ELog ERROR (msg_failed (Json.err "Extra data"));
            EClose 0]
           1 [] []).
Proof. vm_compute. reflexivity. Qed.

(** Data after a newline inside the same chunk is kept by both servers:
    with the two lines in one chunk, both hand the same text to the
    reference decoder, and both report it as not being JSON. *)
Example two_lines_at_once_both :
  Diag.handle_connection Json.loads two_lines_at_once (initial [])
  = (Ret tt,
     World [EAccept 0 client;
            EPrint [FStr [10%N]; FText "[CONNECTED] "; FAddr client];
            ERecv 0 (Chunk one_chunk_two_lines);
            EPrint [FText "[ERROR] Received non-JSON data: ";
                    FStr (Json.text "{'nav_waypoints': []}" ++ [10%N]
                            ++ Json.text "{'search_object': 1}")];
            EClose 0]
           1 [] [])
  ∧ handle_connection Json.loads two_lines_at_once (initial [])
    = (Ret tt,
       World [EAccept 0 client;
              ELog INFO (msg_connection client);
              ERecv 0 (Chunk one_chunk_two_lines);
              ERecv 0 (Chunk []);
              ELog ERROR (msg_failed (Json.err "Extra data"));
              EClose 0]
             1 [] []).
Proof. split; vm_compute; reflexivity. Qed.

(* ================================================================= *)
(** * Further properties *)

(** ** Submissions per connection *)

Ltac close_effects :=
  simpl; rewrite <- ?app_assoc, ?app_nil_r; simpl;
  split_and!; try done;
  first [ by left
        | right; split; [done|]; first [by left | right; by eauto] ].

Lemma dispatch_effects g w o w' :
  dispatch g w = (o, w') →
  ∃ evs new,
    trace w' = trace w ++ evs
    ∧ next_fd w' = next_fd w
    ∧ goals w' = goals w ++ new
    ∧ ((sent evs = [] ∧ new = [])
       ∨ (sent evs = [g]
          ∧ (new = [] ∨ ∃ st pend, new = [GoalRecord g st pend]))).
Proof.
  unfold dispatch, bind, log, emit, wait_for_server, send_goal_async,
    spin_until_future_complete, future_result, bind, emit; simpl.
  destruct (action_server w) as [|s rest] eqn:Hs;
    [intros [= <- <-]; exists [ELog INFO msg_sending; EWaitForServer], [];
     close_effects|].
  destruct (on_wait_for_server s) as [[]|e|]; simpl;
    try (intros [= <- <-]; exists [ELog INFO msg_sending; EWaitForServer], [];
         close_effects).
  destruct (on_send_goal_async s) as [[]|e|]; simpl;
    try (intros [= <- <-];
         exists [ELog INFO msg_sending; EWaitForServer; ESendGoal g], [];
         close_effects).
  rewrite lookup_last; simpl.
  destruct (spin_until (on_spin s) GPending) as [[o1 st] pend] eqn:Hspin.
  rewrite insert_last.
  destruct o1 as [[]|e|]; simpl;
    try (intros [= <- <-];
         exists [ELog INFO msg_sending; EWaitForServer; ESendGoal g;
                 ESpin (length (goals w))], [GoalRecord g st pend];
         close_effects).
  rewrite lookup_last; simpl.
  destruct st; simpl; intros [= <- <-];
    eexists (_ :: _ :: _ :: _ :: _ :: _), [GoalRecord g _ pend];
    close_effects.
Qed.

Lemma translate_effects (json_loads : str → res value) data w o w' :
  translate json_loads data w = (o, w') →
  ∃ evs new,
    trace w' = trace w ++ evs
    ∧ next_fd w' = next_fd w
    ∧ goals w' = goals w ++ new
    ∧ length (sent evs) ≤ 1
    ∧ length new ≤ length (sent evs).
Proof.
  unfold translate, bind, lift.
  destruct (loads_utf8 json_loads data) as [mission|e]; simpl.
  2:{ intros [= <- <-]. exists [], []. rewrite !app_nil_r. simpl.
      split_and!; (done || lia). }
  destruct (send_mission mission _) as [o1 w1] eqn:Hs.
  intros [= <- <-].
  apply send_mission_cases in Hs
    as [(e & -> & -> & _)|[(-> & ->)|(m & g & -> & _ & _ & Hd)]].
  - exists [ELog INFO (msg_received mission)], []. simpl.
    rewrite app_nil_r. split_and!; (done || lia).
  - exists [ELog INFO (msg_received mission); ELog WARN msg_no_waypoints], [].
    simpl. rewrite <- app_assoc, app_nil_r. split_and!; (done || lia).
  - apply dispatch_effects in Hd as (evs & new & Htr & Hfd & Hg & Hsent).
    exists (ELog INFO (msg_received (VDict m)) :: evs), new.
    simpl in Htr, Hfd, Hg. rewrite Htr, <- app_assoc.
    split_and!; try done;
      destruct Hsent as [[Hs ->]|[Hs [->|(st & pend & ->)]]];
      change (sent (ELog INFO (msg_received (VDict m)) :: evs)) with (sent evs);
      rewrite Hs; simpl; lia.
Qed.

Lemma process_effects (json_loads : str → res value) data w o w' :
  process json_loads data w = (o, w') →
  ∃ evs new,
    trace w' = trace w ++ evs
    ∧ next_fd w' = next_fd w
    ∧ goals w' = goals w ++ new
    ∧ length (sent evs) ≤ 1
    ∧ length new ≤ length (sent evs).
Proof.
  unfold process, try_except.
  destruct (translate json_loads data w) as [o1 w1] eqn:Ht.
  apply translate_effects in Ht as (evs & new & Htr & Hfd & Hg & H1 & H2).
  destruct o1 as [[]|e|]; try (intros [= <- <-]; by exists evs, new).
  destruct (is_Exception e); [|intros [= <- <-]; by exists evs, new].
  intros [= <- <-]. exists (evs ++ [ELog ERROR (msg_failed e)]), new.
  simpl. rewrite Htr, <- app_assoc, sent_app. simpl. rewrite app_nil_r.
  by split_and!.
Qed.

(** X1: handling one connection submits at most one goal, whatever the
    payload and whatever the action client does; the goals on record grow
    by at most the goal submitted. *)
Theorem one_submission_per_connection (json_loads : str → res value)
    (c : connection) (w : world) (o : outcome unit) (w' : world) :
  handle_connection json_loads c w = (o, w') →
  ∃ evs new,
    trace w' = trace w ++ evs
    ∧ goals w' = goals w ++ new
    ∧ length (sent evs) ≤ 1
    ∧ length new ≤ length (sent evs).
Proof.
  rewrite handle_connection_eq.
  destruct (accumulated (stream c) []) as [data|e].
  2:{ intros [= <- <-].
      exists (EAccept (next_fd w) (peer c)
                :: ELog INFO (msg_connection (peer c))
                :: recv_events (next_fd w) (stream c) ++ [EClose (next_fd w)]), [].
      simpl. rewrite <- app_assoc, app_nil_r. split; [done|]. split; [done|].
      change (sent (EAccept (next_fd w) (peer c)
                      :: ELog INFO (msg_connection (peer c))
                      :: recv_events (next_fd w) (stream c) ++ [EClose (next_fd w)]))
        with (sent (recv_events (next_fd w) (stream c) ++ [EClose (next_fd w)])).
      rewrite sent_app, sent_recv_events. simpl. lia. }
  destruct (process json_loads data (accepted_world c w)) as [o1 w1] eqn:Hp.
  apply process_effects in Hp as (evs & new & Htr & _ & Hg & H1 & H2).
  simpl in Htr, Hg.
  assert (∀ tl, sent (EAccept (next_fd w) (peer c)
                        :: ELog INFO (msg_connection (peer c))
                        :: recv_events (next_fd w) (stream c) ++ evs ++ tl)
                = sent evs ++ sent tl) as Hsent.
  { intros tl.
    change (sent (EAccept (next_fd w) (peer c)
                    :: ELog INFO (msg_connection (peer c))
                    :: recv_events (next_fd w) (stream c) ++ evs ++ tl))
      with (sent (recv_events (next_fd w) (stream c) ++ evs ++ tl)).
    by rewrite !sent_app, sent_recv_events. }
  destruct o1 as [[]|e|]; intros [= <- <-].
  - exists (EAccept (next_fd w) (peer c)
              :: ELog INFO (msg_connection (peer c))
              :: recv_events (next_fd w) (stream c) ++ evs ++ [EClose (next_fd w)]),
           new.
    rewrite Hsent. simpl. rewrite Htr, <- !app_assoc, app_nil_r. simpl.
    by split_and!.
  - exists (EAccept (next_fd w) (peer c)
              :: ELog INFO (msg_connection (peer c))
              :: recv_events (next_fd w) (stream c) ++ evs ++ [EClose (next_fd w)]),
           new.
    rewrite Hsent. simpl. rewrite Htr, <- !app_assoc, app_nil_r. simpl.
    by split_and!.
  - exists (EAccept (next_fd w) (peer c)
              :: ELog INFO (msg_connection (peer c))
              :: recv_events (next_fd w) (stream c) ++ evs ++ []),
           new.
    rewrite Hsent. simpl. rewrite Htr, <- !app_assoc, !app_nil_r. simpl.
    by split_and!.
Qed.

Lemma one_submission_per_connection_witness :
  ∃ evs new,
    trace (handle_connection Json.loads (one_chunk payload_three)
             (initial [server_accepts])).2
    = trace (initial [server_accepts]) ++ evs
    ∧ goals (handle_connection Json.loads (one_chunk payload_three)
               (initial [server_accepts])).2
      = goals (initial [server_accepts]) ++ new
    ∧ length (sent evs) ≤ 1
    ∧ length new ≤ length (sent evs).
Proof.
  apply (one_submission_per_connection Json.loads (one_chunk payload_three)
           (initial [server_accepts])
           (handle_connection Json.loads (one_chunk payload_three)
              (initial [server_accepts])).1).
  vm_compute. reflexivity.
Defined.

(** ** Sockets and cleanup *)

Lemma handle_connection_closes (json_loads : str → res value) c w o w' :
  handle_connection json_loads c w = (o, w') →
  ∃ body, trace w' = trace w ++ EAccept (next_fd w) (peer c) :: body
    ∧ next_fd w' = S (next_fd w)
    ∧ Forall (own_event (next_fd w)) body
    ∧ (o ≠ Hang → EClose (next_fd w) ∈ body).
Proof.
  rewrite handle_connection_eq.
  destruct (accumulated (stream c) []) as [data|e].
  2:{ intros [= <- <-].
      exists (ELog INFO (msg_connection (peer c))
                :: recv_events (next_fd w) (stream c) ++ [EClose (next_fd w)]).
      simpl. rewrite <- app_assoc. simpl. split_and!; try done.
      - constructor; [done|]. apply Forall_app. split; [apply recv_events_own|].
        by repeat constructor.
      - intros _. right. apply elem_of_app. right. by left. }
  destruct (process json_loads data (accepted_world c w)) as [o1 w1] eqn:Hp.
  apply process_trace in Hp as (evs & Htr & Hfd & Hall & _).
  simpl in Htr, Hfd.
  assert (Forall (own_event (next_fd w))
            (ELog INFO (msg_connection (peer c))
               :: recv_events (next_fd w) (stream c) ++ evs)) as Hown.
  { constructor; [done|]. apply Forall_app.
    split; [apply recv_events_own|by apply no_socket_own]. }
  assert (∀ o2 : outcome unit,
            ∃ body,
              trace w1 ++ [EClose (next_fd w)]
              = trace w ++ EAccept (next_fd w) (peer c) :: body
              ∧ next_fd w1 = S (next_fd w)
              ∧ Forall (own_event (next_fd w)) body
              ∧ (o2 ≠ Hang → EClose (next_fd w) ∈ body)) as Hclosed.
  { intros o2.
    exists ((ELog INFO (msg_connection (peer c))
               :: recv_events (next_fd w) (stream c) ++ evs)
              ++ [EClose (next_fd w)]).
    rewrite Htr. simpl. rewrite <- !app_assoc. simpl. split_and!; try done.
    - rewrite app_assoc, app_comm_cons. apply Forall_app.
      split; [done|by repeat constructor].
    - intros _. right. rewrite app_assoc. apply elem_of_app. right. by left. }
  destruct o1 as [[]|e|]; intros [= <- <-].
  - apply (Hclosed (Ret tt)).
  - apply (Hclosed (Raise e)).
  - exists (ELog INFO (msg_connection (peer c))
              :: recv_events (next_fd w) (stream c) ++ evs).
    rewrite Htr. simpl. rewrite <- !app_assoc. simpl. by split_and!.
Qed.

Lemma accept_in_segment fd0 a0 body fd a :
  Forall (own_event fd0) body →
  EAccept fd a ∈ EAccept fd0 a0 :: body → fd = fd0.
Proof.
  intros Hown Hin. apply elem_of_cons in Hin as [[= -> ->]|Hin]; [done|].
  rewrite Forall_forall in Hown. by apply Hown in Hin.
Qed.

Lemma run_sockets (json_loads : str → res value) arrivals w o w' :
  run json_loads arrivals w = (o, w') →
  next_fd w ≤ next_fd w'
  ∧ ∃ evs, trace w' = trace w ++ evs
      ∧ ∀ fd a, EAccept fd a ∈ evs →
          next_fd w ≤ fd < next_fd w'
          ∧ (EClose fd ∈ evs ∨ (o = Hang ∧ S fd = next_fd w')).
Proof.
  revert w. induction arrivals as [|[c| |e] arrivals IH]; intros w; simpl.
  - intros [= <- <-]. split; [done|]. exists []. rewrite app_nil_r.
    split; [done|]. intros fd a Hin. by apply elem_of_nil in Hin.
  - unfold bind.
    destruct (handle_connection json_loads c w) as [o1 w1] eqn:Hh.
    apply handle_connection_closes in Hh as (body & Htr & Hfd & Hown & Hcl).
    destruct o1 as [[]|e|].
    + intros Hrun. apply IH in Hrun as (Hle & evs & Htr' & Hacc).
      split; [lia|].
      exists ((EAccept (next_fd w) (peer c) :: body) ++ evs).
      split; [rewrite Htr', Htr; by rewrite <- app_assoc|].
      intros fd a Hin. apply elem_of_app in Hin as [Hin|Hin].
      * apply (accept_in_segment _ _ _ _ _ Hown) in Hin as ->.
        split; [lia|]. left. apply elem_of_app. left. right. by apply Hcl.
      * apply Hacc in Hin as [Hrange Hc]. split; [lia|].
        destruct Hc as [Hc|Hc]; [|by right].
        left. apply elem_of_app. by right.
    + intros [= <- <-]. split; [lia|].
      exists (EAccept (next_fd w) (peer c) :: body). split; [done|].
      intros fd a Hin. apply (accept_in_segment _ _ _ _ _ Hown) in Hin as ->.
      split; [lia|]. left. right. by apply Hcl.
    + intros [= <- <-]. split; [lia|].
      exists (EAccept (next_fd w) (peer c) :: body). split; [done|].
      intros fd a Hin. apply (accept_in_segment _ _ _ _ _ Hown) in Hin as ->.
      split; [lia|]. right. by rewrite Hfd.
  - intros [= <- <-]. split; [done|]. exists []. rewrite app_nil_r.
    split; [done|]. intros fd a Hin. by apply elem_of_nil in Hin.
  - intros [= <- <-]. split; [done|]. exists []. rewrite app_nil_r.
    split; [done|]. intros fd a Hin. by apply elem_of_nil in Hin.
Qed.

(** The [try] statement of [main] (lines 66-72): every accepted socket is
    closed when it is left, the clean-up comes last, and
    [KeyboardInterrupt] does not leave it. *)
Lemma main_sockets (json_loads : str → res value)
    (arrivals : list arrival) (w : world) (o : outcome unit) (w' : world) :
  main json_loads arrivals w = (o, w') →
  ∃ evs,
    (∀ fd a, EAccept fd a ∈ evs →
       EClose fd ∈ evs ∨ (o = Hang ∧ S fd = next_fd w'))
    ∧ match o with
      | Hang => trace w' = trace w ++ evs
      | Ret _ => trace w' = trace w ++ evs ++ [EDestroyNode; EShutdown]
      | Raise e =>
        trace w' = trace w ++ evs ++ [EDestroyNode; EShutdown]
        ∧ exn_cls e ≠ KeyboardInterrupt
      end.
Proof.
  unfold main.
  destruct (run json_loads arrivals w) as [o1 w1] eqn:Hrun.
  apply run_sockets in Hrun as (_ & evs & Htr & Hacc).
  assert (∀ o2 : outcome unit, o2 ≠ Hang → o1 ≠ Hang →
            ∀ fd a, EAccept fd a ∈ evs →
              EClose fd ∈ evs
              ∨ (o2 = Hang ∧ S fd = next_fd
                   (World ((trace w1 ++ [EDestroyNode]) ++ [EShutdown])
                          (next_fd w1) (action_server w1) (goals w1))))
    as Hdone.
  { intros o2 _ Ho1 fd a Hin. apply Hacc in Hin as [_ [Hc|[Hc _]]]; [by left|done]. }
  destruct o1 as [[]|e|].
  - unfold bind, emit. simpl. intros [= <- <-]. exists evs.
    split; [by apply Hdone|]. simpl. by rewrite Htr, <- !app_assoc.
  - destruct (exn_cls e) eqn:Hcls; unfold bind, emit, raise; simpl;
      intros [= <- <-]; exists evs;
      (split; [by apply Hdone|]); simpl; rewrite Htr, <- !app_assoc; simpl;
      try done; split; try done; by rewrite Hcls.
  - intros [= <- <-]. exists evs. split; [|done].
    intros fd a Hin. apply Hacc in Hin as [_ Hc]. done.
Qed.

(** X2: once the node is constructed, that is when [bind] and [listen]
    have returned, whenever [main()] ends, by return or by exception,
    every socket it accepted has been closed and the last two things it
    did are [destroy_node] and [shutdown]; it never ends with
    [KeyboardInterrupt].  While it is stalled, every accepted socket but
    the one being handled is closed.  The listening line is logged before
    anything is accepted. *)
Theorem main_ends_clean (json_loads : str → res value)
    (bind listen : call unit) (arrivals : list arrival) (w : world)
    (o : outcome unit) (w' : world) :
  bind = Returns tt →
  listen = Returns tt →
  program json_loads bind listen arrivals w = (o, w') →
  ∃ evs,
    (∀ fd a, EAccept fd a ∈ evs →
       EClose fd ∈ evs ∨ (o = Hang ∧ S fd = next_fd w'))
    ∧ match o with
      | Hang => trace w' = trace w ++ ELog INFO msg_listening :: evs
      | Ret _ =>
        trace w' = trace w ++ ELog INFO msg_listening :: evs
                     ++ [EDestroyNode; EShutdown]
      | Raise e =>
        trace w' = trace w ++ ELog INFO msg_listening :: evs
                     ++ [EDestroyNode; EShutdown]
        ∧ exn_cls e ≠ KeyboardInterrupt
      end.
Proof.
  intros -> ->. unfold program, ROSBridge_init, Env.bind, of_call.
  cbn [ret]. unfold log. rewrite emit_add. intros Hmain.
  apply main_sockets in Hmain as (evs & Hclosed & Htr).
  exists evs. split; [exact Hclosed|].
  simpl in Htr. destruct o as [[]|e|].
  - by rewrite Htr, <- app_assoc.
  - destruct Htr as [Htr Hki]. split; [|exact Hki].
    by rewrite Htr, <- app_assoc.
  - by rewrite Htr, <- app_assoc.
Qed.

Lemma main_ends_clean_witness :
  ∃ evs,
    (∀ fd a, EAccept fd a ∈ evs →
       EClose fd ∈ evs
       ∨ (@Raise unit conn_reset = Hang
          ∧ S fd = next_fd
              (program Json.loads (Returns tt) (Returns tt)
                 [Connect (one_chunk payload_empty); Connect broken]
                 (initial [server_accepts])).2))
    ∧ trace (program Json.loads (Returns tt) (Returns tt)
               [Connect (one_chunk payload_empty); Connect broken]
               (initial [server_accepts])).2
      = trace (initial [server_accepts]) ++ ELog INFO msg_listening :: evs
          ++ [EDestroyNode; EShutdown]
    ∧ exn_cls conn_reset ≠ KeyboardInterrupt.
Proof.
  apply (main_ends_clean Json.loads (Returns tt) (Returns tt)
           [Connect (one_chunk payload_empty); Connect broken]
           (initial [server_accepts]) (Raise conn_reset)).
  - reflexivity.
  - reflexivity.
  - vm_compute. reflexivity.
Defined.

(** ** Keys the bridge does not read *)

Lemma same_waypoint_dicts l1 l2 :
  Forall2 same_waypoint l1 l2 →
  ∃ wps1 wps2 : list (gmap str value),
    l1 = VDict <$> wps1 ∧ l2 = VDict <$> wps2
    ∧ to_waypoint <$> wps1 = to_waypoint <$> wps2.
Proof.
  induction 1 as [|a b l1 l2 (ma & mb & -> & -> & Hlat & Hlon) _ IH].
  - by exists [], [].
  - destruct IH as (wps1 & wps2 & -> & -> & Heq).
    exists (ma :: wps1), (mb :: wps2). split_and!; try done.
    rewrite !fmap_cons, Heq. f_equal. unfold to_waypoint.
    by rewrite Hlat, Hlon.
Qed.

(** X3: [send_mission] reads three keys of the mission and two of each
    waypoint.  Two missions that agree on [search_object] and
    [search_pattern], and whose [nav_waypoints] are either the same value
    or lists of objects that agree pairwise on [latitude] and
    [longitude], are treated identically, whatever else they contain. *)
Theorem unread_keys_ignored (m1 m2 : gmap str value) (w : world) :
  m1 !! k_search_object = m2 !! k_search_object →
  m1 !! k_search_pattern = m2 !! k_search_pattern →
  (m1 !! k_nav_waypoints = m2 !! k_nav_waypoints
   ∨ ∃ l1 l2, m1 !! k_nav_waypoints = Some (VList l1)
              ∧ m2 !! k_nav_waypoints = Some (VList l2)
              ∧ Forall2 same_waypoint l1 l2) →
  send_mission (VDict m1) w = send_mission (VDict m2) w.
Proof.
  intros Hso Hsp [Hnav|(l1 & l2 & H1 & H2 & Hsame)].
  - unfold send_mission, build_goal. cbn [py_get].
    by rewrite Hso, Hsp, Hnav.
  - apply same_waypoint_dicts in Hsame as (wps1 & wps2 & -> & -> & Heq).
    destruct wps1 as [|wp1 wps1]; destruct wps2 as [|wp2 wps2]; try done.
    + rewrite (send_mission_falsy m1 (VList [])); [|by rewrite H1|done].
      by rewrite (send_mission_falsy m2 (VList [])); [|by rewrite H2|done].
    + rewrite (send_mission_dicts m1 (wp1 :: wps1)); [|done..].
      rewrite (send_mission_dicts m2 (wp2 :: wps2)); [|done..].
      unfold goal_of. by rewrite Hso, Hsp, Heq.
Qed.

Lemma unread_keys_ignored_witness :
  send_mission (VDict mission_three_noisy) (initial [server_accepts])
  = send_mission (VDict mission_three) (initial [server_accepts]).
Proof.
  apply (unread_keys_ignored mission_three_noisy mission_three
           (initial [server_accepts])).
  - vm_compute. reflexivity.
  - vm_compute. reflexivity.
  - right.
    exists [VDict {[ k_latitude := VFloat 1%float; k_longitude := VFloat 2%float;
                     str_of "alt" := VInt 30 ]};
            VDict {[ k_latitude := VFloat 3.5%float;
                     str_of "name" := VStr (str_of "b") ]};
            VDict {[ k_longitude := VFloat 4.25%float;
                     k_latitude := VFloat 5%float ]}],
           (VDict <$> waypoints_three).
    split; [vm_compute; reflexivity|]. split; [vm_compute; reflexivity|].
    repeat constructor; eexists _, _;
      (split; [reflexivity|]); (split; [reflexivity|]);
      split; vm_compute; reflexivity.
Defined.

(** ** A waypoint field that is a number *)

(** X5: when [nav_waypoints] is bound to a truthy value without a length
    (a non-zero number, [true]), [len] raises [TypeError] before anything
    is built; the connection's handler logs it at error level, nothing is
    submitted, and the loop goes on. *)
Theorem scalar_waypoints_type_error (json_loads : str → res value)
    (c : connection) (rest : list arrival) (w : world) (data : bytes)
    (m : gmap str value) (v : value) :
  accumulated (stream c) [] = Ok data →
  loads_utf8 json_loads data = Ok (VDict m) →
  m !! k_nav_waypoints = Some v →
  is_scalar v = true →
  truthy v = true →
  let w' := handled c [ELog INFO (msg_received (VDict m));
                       ELog ERROR (msg_failed (no_len v))] w in
  (∀ w1, send_mission (VDict m) w1 = (Raise (no_len v), w1))
  ∧ handle_connection json_loads c w = (Ret tt, w')
  ∧ sent (trace w') = sent (trace w)
  ∧ run json_loads (Connect c :: rest) w = run json_loads rest w'.
Proof.
  intros Hd Hl Hm Hsc Htr w'.
  assert (∀ w1, send_mission (VDict m) w1 = (Raise (no_len v), w1)) as Hs.
  { intros w1. unfold send_mission, bind, lift. cbn [py_get]. rewrite Hm.
    unfold ret at 1. cbn [default id]. unfold no_waypoints. rewrite Htr.
    cbn [negb]. by destruct v. }
  assert (handle_connection json_loads c w = (Ret tt, w')) as Hh.
  { by apply (handle_send_raises json_loads c data (VDict m) (no_len v)). }
  split_and!; try done.
  - unfold w'. rewrite sent_handled. simpl. apply app_nil_r.
  - by apply run_connect.
Qed.

Lemma scalar_waypoints_type_error_witness :
  let m := object_of (loads_utf8 Json.loads payload_number) in
  let c := one_chunk payload_number in
  let w := initial [server_accepts] in
  let w' := handled c [ELog INFO (msg_received (VDict m));
                       ELog ERROR (msg_failed (no_len (VInt 3)))] w in
  (∀ w1, send_mission (VDict m) w1 = (Raise (no_len (VInt 3)), w1))
  ∧ handle_connection Json.loads c w = (Ret tt, w')
  ∧ sent (trace w') = sent (trace w)
  ∧ run Json.loads (Connect c :: [NotOk]) w = run Json.loads [NotOk] w'.
Proof.
  apply (scalar_waypoints_type_error Json.loads (one_chunk payload_number)
           [NotOk] (initial [server_accepts]) payload_number
           (object_of (loads_utf8 Json.loads payload_number)) (VInt 3)).
  - reflexivity.
  - vm_compute. reflexivity.
  - vm_compute. reflexivity.
  - reflexivity.
  - reflexivity.
Defined.

(** ** Waits without a timeout *)

Lemma run_hangs (json_loads : str → res value) c rest w data mission w' :
  accumulated (stream c) [] = Ok data →
  loads_utf8 json_loads data = Ok mission →
  send_mission mission
    (add_events [ELog INFO (msg_received mission)] (accepted_world c w))
  = (Hang, w') →
  run json_loads (Connect c :: rest) w = (Hang, w').
Proof.
  intros Hd Hl Hs. cbn [run]. unfold bind at 1.
  rewrite handle_connection_eq, Hd, (process_decoded _ _ _ _ Hl), Hs.
  reflexivity.
Qed.

(** X6: [wait_for_server] has no timeout.  When a mission with waypoints
    arrives while the action server is down and stays down, the worker
    loop stalls in that call: nothing is submitted, the connection's
    socket is not closed, and no later connection is accepted. *)
Theorem server_down_stalls (json_loads : str → res value)
    (c : connection) (rest : list arrival) (w : world) (data : bytes)
    (m : gmap str value) (wps : list (gmap str value)) :
  accumulated (stream c) [] = Ok data →
  loads_utf8 json_loads data = Ok (VDict m) →
  m !! k_nav_waypoints = Some (VList (VDict <$> wps)) →
  wps ≠ [] →
  (action_server w = []
   ∨ ∃ s more, action_server w = s :: more ∧ on_wait_for_server s = Blocks) →
  run json_loads (Connect c :: rest) w
  = (Hang,
     add_events [ELog INFO (msg_received (VDict m)); ELog INFO msg_sending;
                 EWaitForServer]
       (accepted_world c w)).
Proof.
  intros Hd Hl Hm Hne Hdown.
  apply (run_hangs json_loads c rest w data (VDict m)); [done..|].
  rewrite (send_mission_dicts _ _ _ Hm Hne).
  unfold dispatch, bind, log, emit, wait_for_server, bind, emit, add_events;
    simpl.
  destruct Hdown as [Ha|(s & more & Ha & Hb)]; rewrite Ha; [|rewrite Hb];
    by rewrite <- !app_assoc.
Qed.

Lemma server_down_stalls_witness :
  run Json.loads (Connect (one_chunk payload_three)
                    :: [Connect (one_chunk payload_empty)])
      (initial [server_down])
  = (Hang,
     add_events [ELog INFO (msg_received (VDict mission_three));
                 ELog INFO msg_sending; EWaitForServer]
       (accepted_world (one_chunk payload_three) (initial [server_down]))).
Proof.
  apply (server_down_stalls Json.loads (one_chunk payload_three)
           [Connect (one_chunk payload_empty)] (initial [server_down])
           payload_three mission_three waypoints_three).
  - reflexivity.
  - vm_compute. reflexivity.
  - vm_compute. reflexivity.
  - discriminate.
  - right. exists server_down, []. split; reflexivity.
Defined.

Lemma spin_until_quiet evs :
  Forall quiet evs → spin_until evs GPending = (Hang, GPending, []).
Proof.
  induction 1 as [|ev evs Hq _ IH]; simpl; [done|].
  destruct ev; try done; simpl; exact IH.
Qed.

(** X7: [spin_until_future_complete] has no timeout either.  When the
    server is up and takes the goal but no response ever comes, the goal
    has been submitted and stays pending, and the worker loop stalls:
    nothing is logged after the submission, the socket is not closed, and
    no later connection is accepted. *)
Theorem silent_server_stalls (json_loads : str → res value)
    (c : connection) (rest : list arrival) (w : world) (data : bytes)
    (m : gmap str value) (wps : list (gmap str value))
    (s : action_script) (more : list action_script) :
  accumulated (stream c) [] = Ok data →
  loads_utf8 json_loads data = Ok (VDict m) →
  m !! k_nav_waypoints = Some (VList (VDict <$> wps)) →
  wps ≠ [] →
  action_server w = s :: more →
  on_wait_for_server s = Returns tt →
  on_send_goal_async s = Returns tt →
  Forall quiet (on_spin s) →
  run json_loads (Connect c :: rest) w
  = (Hang,
     World (trace (accepted_world c w)
              ++ [ELog INFO (msg_received (VDict m)); ELog INFO msg_sending;
                  EWaitForServer; ESendGoal (goal_of m wps);
                  ESpin (length (goals w))])
           (S (next_fd w)) more
           (goals w ++ [GoalRecord (goal_of m wps) GPending []])).
Proof.
  intros Hd Hl Hm Hne Hs Hw Hsend Hq.
  apply (run_hangs json_loads c rest w data (VDict m)); [done..|].
  rewrite (send_mission_dicts _ _ _ Hm Hne).
  unfold dispatch, bind, log, emit, wait_for_server, send_goal_async,
    spin_until_future_complete, bind, emit; simpl.
  rewrite Hs, Hw; simpl. rewrite Hsend; simpl.
  rewrite lookup_last; simpl. rewrite (spin_until_quiet _ Hq).
  rewrite insert_last. by rewrite <- !app_assoc.
Qed.

Lemma silent_server_stalls_witness :
  run Json.loads (Connect (one_chunk payload_three)
                    :: [Connect (one_chunk payload_empty)])
      (initial [server_silent; server_accepts])
  = (Hang,
     World (trace (accepted_world (one_chunk payload_three)
                     (initial [server_silent; server_accepts]))
              ++ [ELog INFO (msg_received (VDict mission_three));
                  ELog INFO msg_sending; EWaitForServer;
                  ESendGoal (goal_of mission_three waypoints_three);
                  ESpin (length (goals (initial [server_silent; server_accepts])))])
           (S (next_fd (initial [server_silent; server_accepts])))
           [server_accepts]
           (goals (initial [server_silent; server_accepts])
              ++ [GoalRecord (goal_of mission_three waypoints_three) GPending []])).
Proof.
  apply (silent_server_stalls Json.loads (one_chunk payload_three)
           [Connect (one_chunk payload_empty)]
           (initial [server_silent; server_accepts])
           payload_three mission_three waypoints_three
           server_silent [server_accepts]).
  - reflexivity.
  - vm_compute. reflexivity.
  - vm_compute. reflexivity.
  - discriminate.
  - reflexivity.
  - reflexivity.
  - reflexivity.
  - repeat constructor.
Defined.

(** ** Start-up *)

Lemma main_trace (json_loads : str → res value) arrivals w o w' :
  main json_loads arrivals w = (o, w') →
  o ≠ Hang →
  ∃ evs, trace w' = trace w ++ evs ++ [EDestroyNode; EShutdown].
Proof.
  unfold main.
  destruct (run json_loads arrivals w) as [o1 w1] eqn:Hrun.
  apply run_sockets in Hrun as (_ & evs & Htr & _).
  destruct o1 as [[]|e|]; [| |by intros [= <- <-]].
  - unfold bind, emit. simpl. intros [= <- <-] _. exists evs.
    simpl. by rewrite Htr, <- !app_assoc.
  - destruct (exn_cls e); unfold bind, emit, raise; simpl;
      intros [= <- <-] _; exists evs; simpl; by rewrite Htr, <- !app_assoc.
Qed.

(** X8: the node is constructed before the [try] of [main], so the
    clean-up runs exactly when the start-up succeeded.  When the program
    ends, either the socket could not be bound or could not listen, and
    then it ends with that exception, whatever its class, having logged
    nothing, accepted nothing and cleaned up nothing; or both succeeded,
    and then the listening line is the first thing it did and
    [destroy_node] and [shutdown] the last. *)
Theorem cleanup_iff_started (json_loads : str → res value)
    (bind listen : call unit) (arrivals : list arrival) (w : world)
    (o : outcome unit) (w' : world) :
  program json_loads bind listen arrivals w = (o, w') →
  o ≠ Hang →
  (∃ e, o = Raise e ∧ w' = w
        ∧ (bind = Raises e ∨ (bind = Returns tt ∧ listen = Raises e)))
  ∨ (bind = Returns tt ∧ listen = Returns tt
     ∧ ∃ evs, trace w' = trace w ++ ELog INFO msg_listening :: evs
                           ++ [EDestroyNode; EShutdown]).
Proof.
  unfold program, ROSBridge_init, Env.bind, of_call.
  destruct bind as [[]|e|]; cbn [ret raise hang].
  - destruct listen as [[]|e|]; cbn [ret raise hang].
    + unfold log. rewrite emit_add. intros Hmain Ho. right.
      split; [done|]. split; [done|].
      apply main_trace in Hmain as (evs & Htr); [|done].
      exists evs. simpl in Htr. by rewrite Htr, <- app_assoc.
    + intros [= <- <-] _. left. exists e. eauto.
    + by intros [= <- <-].
  - intros [= <- <-] _. left. exists e. eauto.
  - by intros [= <- <-].
Qed.

Lemma cleanup_iff_started_witness :
  (∃ e, @Raise unit address_in_use = Raise e
        ∧ initial [server_accepts] = initial [server_accepts]
        ∧ (@Raises unit address_in_use = Raises e
           ∨ (@Raises unit address_in_use = Returns tt
              ∧ Returns tt = Raises e)))
  ∨ (@Raises unit address_in_use = Returns tt ∧ Returns tt = Returns tt
     ∧ ∃ evs, trace (initial [server_accepts])
              = trace (initial [server_accepts])
                  ++ ELog INFO msg_listening :: evs
                  ++ [EDestroyNode; EShutdown]).
Proof.
  apply (cleanup_iff_started Json.loads (Raises address_in_use) (Returns tt)
           [Connect (one_chunk payload_three)] (initial [server_accepts])
           (Raise address_in_use) (initial [server_accepts])).
  - reflexivity.
  - discriminate.
Defined.

(** A start-up that succeeds, one mission, then Ctrl-C in [accept]: the
    listening line first, the clean-up last, and a normal return. *)
Example program_run :
  program Json.loads (Returns tt) (Returns tt)
    [Connect (one_chunk payload_empty); AcceptRaises ctrl_c]
    (initial [server_accepts])
  = (Ret tt,
     World [ELog INFO msg_listening;
            EAccept 0 client;
            ELog INFO (msg_connection client);
            ERecv 0 (Chunk payload_empty);
            ERecv 0 (Chunk []);
            ELog INFO (msg_received (VDict {[ k_nav_waypoints := VList [] ]}));
            ELog WARN msg_no_waypoints;
            EClose 0;
            EDestroyNode;
            EShutdown]
           1 [server_accepts] []).
Proof. vm_compute. reflexivity. Qed.

(* ================================================================= *)
(** * The diagnostic server *)

(** ** Its read loop *)

Lemma has_newline_app a b :
  has_newline (a ++ b) = has_newline a || has_newline b.
Proof. apply existsb_app. Qed.

Lemma recv_line_prefix fd raws texts tail acc w :
  decoded_chunks raws texts →
  has_newline (acc ++ concat texts) = false →
  Diag.recv_line fd ((Chunk <$> raws) ++ tail) acc w
  = Diag.recv_line fd tail (acc ++ concat texts) (add_events (recvs fd raws) w).
Proof.
  intros Hdec. revert acc w.
  induction Hdec as [|raw t raws texts [Hraw Ht] _ IH]; intros acc w Hnl.
  - simpl. rewrite app_nil_r. unfold recvs. simpl.
    unfold add_events. simpl. rewrite app_nil_r. by destruct w.
  - rewrite fmap_cons. cbn [app Diag.recv_line concat].
    unfold bind at 1. rewrite emit_add. unfold bind at 1, lift. rewrite Hraw.
    cbn [ret]. destruct t as [|ch t]; [done|].
    cbn [concat] in Hnl. rewrite app_assoc in Hnl.
    assert (has_newline (acc ++ ch :: t) = false) as Hnl'.
    { rewrite has_newline_app in Hnl. by apply orb_false_iff in Hnl as [-> _]. }
    rewrite Hnl'. rewrite IH by done.
    rewrite add_events_app. by rewrite <- app_assoc.
Qed.

(** X9: the diagnostic server reads chunk by chunk, decoding each chunk
    on its own, and stops at the first chunk that is empty or after which
    the text read so far contains a newline.  The text it ends with is
    everything up to and including that chunk; nothing after it is
    received. *)
Theorem recv_line_stops (fd : nat) (raws : list bytes) (texts : list str)
    (raw : bytes) (t : str) (later : list recv_result) (w : world) :
  decoded_chunks raws texts →
  has_newline (concat texts) = false →
  Utf8.decode raw = Ok t →
  (t = [] ∨ has_newline t = true) →
  Diag.recv_line fd ((Chunk <$> raws) ++ Chunk raw :: later) [] w
  = (Ret (concat texts ++ t), add_events (recvs fd (raws ++ [raw])) w).
Proof.
  intros Hdec Hnl Hraw Hstop.
  rewrite (recv_line_prefix fd raws texts) by done.
  cbn [app Diag.recv_line]. unfold bind at 1. rewrite emit_add.
  unfold bind, lift. rewrite Hraw. cbn [ret].
  rewrite add_events_app. unfold recvs. rewrite fmap_app. simpl.
  destruct Hstop as [->|Ht].
  - by rewrite app_nil_r.
  - destruct t as [|ch t]; [done|].
    by rewrite has_newline_app, Ht, orb_true_r.
Qed.

Lemma recv_line_stops_witness :
  Diag.recv_line 0
    ((Chunk <$> [take 5 first_line; drop 5 (take 10 first_line)])
       ++ Chunk (drop 10 first_line) :: [Chunk second_line; Chunk []])
    [] (initial [])
  = (Ret (concat [str_of "{" ++ Json.text "'nav"; str_of "_wayp"]
            ++ (Json.text "oints': []}" ++ [10%N])),
     add_events
       (recvs 0 ([take 5 first_line; drop 5 (take 10 first_line)]
                   ++ [drop 10 first_line]))
       (initial [])).
Proof.
  apply (recv_line_stops 0 [take 5 first_line; drop 5 (take 10 first_line)]
           [str_of "{" ++ Json.text "'nav"; str_of "_wayp"]
           (drop 10 first_line) (Json.text "oints': []}" ++ [10%N])
           [Chunk second_line; Chunk []] (initial [])).
  - repeat constructor; (reflexivity || discriminate).
  - reflexivity.
  - reflexivity.
  - right. reflexivity.
Defined.

(** ** One connection *)

Lemma diag_handle_eq (json_loads : str → res value) c w :
  Diag.handle_connection json_loads c w
  = match Diag.recv_line (next_fd w) (stream c) [] (diag_accepted c w) with
    | (Ret data_str, w1) =>
      match json_loads (strip data_str) with
      | Ok mission_data =>
        (Ret tt,
         add_events [EPrint [FText "[RECEIVED MISSION]:"];
                     EPrint [FValue mission_data]; EClose (next_fd w)] w1)
      | Throw e =>
        if is_JSONDecodeError e
        then (Ret tt,
              add_events [EPrint [FText "[ERROR] Received non-JSON data: ";
                                  FStr data_str];
                          EClose (next_fd w)] w1)
        else (Raise e, add_events [EClose (next_fd w)] w1)
      end
    | (Raise e, w1) => (Raise e, add_events [EClose (next_fd w)] w1)
    | (Hang, w1) => (Hang, w1)
    end.
Proof.
  unfold Diag.handle_connection, bind, accept, with_conn, print, emit; simpl.
  assert (World ((trace w ++ [EAccept (next_fd w) (peer c)])
                   ++ [EPrint [FStr [10%N]; FText "[CONNECTED] "; FAddr (peer c)]])
                (S (next_fd w)) (action_server w) (goals w)
          = diag_accepted c w) as ->.
  { unfold diag_accepted. by rewrite <- app_assoc. }
  destruct (Diag.recv_line _ _ _ _) as [[data_str|e|] w1]; try done.
  unfold try_except, lift. simpl.
  destruct (json_loads (strip data_str)) as [mission_data|e]; simpl.
  - unfold add_events. simpl. by rewrite <- !app_assoc.
  - destruct (is_JSONDecodeError e); simpl; [|done].
    unfold add_events. simpl. by rewrite <- !app_assoc.
Qed.

Lemma decode_error_class e data :
  Utf8.decode data = Throw e → Diag.is_KeyboardInterrupt e = false.
Proof. intros H. by rewrite (decode_throw _ _ H). Qed.

(** X10: in the diagnostic server every chunk is decoded on its own,
    outside any handler.  A chunk that is not valid UTF-8 by itself, for
    instance because a multi-byte character is cut by the chunk boundary,
    ends the handling of the connection with [UnicodeDecodeError] after
    the socket is closed, and the exception leaves the server loop: no
    later connection is served. *)
Theorem diag_undecodable_chunk_fatal (json_loads : str → res value)
    (c : connection) (rest : list Diag.timed_arrival) (w : world)
    (raws : list bytes) (texts : list str) (raw : bytes)
    (later : list recv_result) (e : exn) :
  stream c = (Chunk <$> raws) ++ Chunk raw :: later →
  decoded_chunks raws texts →
  has_newline (concat texts) = false →
  Utf8.decode raw = Throw e →
  let w' := add_events (recvs (next_fd w) (raws ++ [raw]) ++ [EClose (next_fd w)])
              (diag_accepted c w) in
  Diag.handle_connection json_loads c w = (Raise e, w')
  ∧ Diag.serve json_loads (Diag.TConnect c :: rest) w = (Raise e, w').
Proof.
  intros Hstream Hdec Hnl Hraw w'.
  assert (Diag.handle_connection json_loads c w = (Raise e, w')) as Hh.
  { rewrite diag_handle_eq, Hstream.
    rewrite (recv_line_prefix _ raws texts) by done.
    cbn [app Diag.recv_line]. unfold bind at 1. rewrite emit_add.
    unfold bind, lift. rewrite Hraw. cbn [raise].
    rewrite !add_events_app. unfold w', recvs. rewrite fmap_app.
    by rewrite <- !app_assoc. }
  split; [done|]. cbn [Diag.serve]. rewrite Hh.
  by rewrite (decode_error_class _ _ Hraw).
Qed.

Lemma diag_undecodable_chunk_fatal_witness :
  let w' := add_events
              (recvs 0 ([] ++ [take 11 payload_euro]) ++ [EClose 0])
              (diag_accepted cut_euro (initial [])) in
  Diag.handle_connection Json.loads cut_euro (initial [])
  = (Raise Utf8.decode_error, w')
  ∧ Diag.serve Json.loads
      (Diag.TConnect cut_euro :: [Diag.TConnect (one_chunk payload_empty)])
      (initial [])
    = (Raise Utf8.decode_error, w').
Proof.
  apply (diag_undecodable_chunk_fatal Json.loads cut_euro
           [Diag.TConnect (one_chunk payload_empty)] (initial [])
           [] [] (take 11 payload_euro)
           [Chunk (drop 11 payload_euro); Chunk []] Utf8.decode_error).
  - reflexivity.
  - constructor.
  - reflexivity.
  - reflexivity.
Defined.

(** The bridge decodes the accumulated bytes at once: the same two chunks
    are a valid payload for it. *)
Example cut_euro_bridge :
  handle_connection Json.loads cut_euro (initial [])
  = (Ret tt,
     World [EAccept 0 client;
            ELog INFO (msg_connection client);
            ERecv 0 (Chunk (take 11 payload_euro));
            ERecv 0 (Chunk (drop 11 payload_euro));
            ERecv 0 (Chunk []);
            ELog INFO (msg_received
              (VDict {[ str_of "note" := VStr [8364%N];
                        k_nav_waypoints := VList [] ]}));
            ELog WARN msg_no_waypoints;
            EClose 0]
           1 [] []).
Proof. vm_compute. reflexivity. Qed.

(** X11: when the text the diagnostic server has read is not JSON, it
    prints the error line with the text as read, unstripped, closes the
    socket and goes on serving. *)
Theorem diag_non_json_reported (json_loads : str → res value)
    (c : connection) (rest : list Diag.timed_arrival) (w w1 : world)
    (data_str : str) (e : exn) :
  Diag.recv_line (next_fd w) (stream c) [] (diag_accepted c w)
  = (Ret data_str, w1) →
  json_loads (strip data_str) = Throw e →
  exn_cls e = JSONDecodeError →
  let w' := add_events [EPrint [FText "[ERROR] Received non-JSON data: ";
                                FStr data_str];
                        EClose (next_fd w)] w1 in
  Diag.handle_connection json_loads c w = (Ret tt, w')
  ∧ Diag.serve json_loads (Diag.TConnect c :: rest) w
    = Diag.serve json_loads rest w'.
Proof.
  intros Hr Hj Hcls w'.
  assert (Diag.handle_connection json_loads c w = (Ret tt, w')) as Hh.
  { rewrite diag_handle_eq, Hr, Hj. unfold is_JSONDecodeError. by rewrite Hcls. }
  split; [done|]. cbn [Diag.serve]. by rewrite Hh.
Qed.

Lemma diag_non_json_reported_witness :
  let c := one_chunk (bytes_of "  not-json ") in
  let w1 := add_events [ERecv 0 (Chunk (bytes_of "  not-json "));
                        ERecv 0 (Chunk [])] (diag_accepted c (initial [])) in
  let w' := add_events [EPrint [FText "[ERROR] Received non-JSON data: ";
                                FStr (str_of "  not-json ")];
                        EClose 0] w1 in
  Diag.handle_connection Json.loads c (initial []) = (Ret tt, w')
  ∧ Diag.serve Json.loads (Diag.TConnect c :: [Diag.TTimeout]) (initial [])
    = Diag.serve Json.loads [Diag.TTimeout] w'.
Proof.
  apply (diag_non_json_reported Json.loads (one_chunk (bytes_of "  not-json "))
           [Diag.TTimeout] (initial [])
           (add_events [ERecv 0 (Chunk (bytes_of "  not-json "));
                        ERecv 0 (Chunk [])]
              (diag_accepted (one_chunk (bytes_of "  not-json ")) (initial [])))
           (str_of "  not-json ") Json.expecting_value).
  - reflexivity.
  - reflexivity.
  - reflexivity.
Defined.

(** ** Its loop *)

Lemma recv_line_effects fd stream acc w o w1 :
  Diag.recv_line fd stream acc w = (o, w1) →
  o ≠ Hang
  ∧ ∃ evs, w1 = add_events evs w ∧ Forall (diag_body fd) evs.
Proof.
  revert acc w. induction stream as [|[raw|e] stream IH]; intros acc w.
  - cbn [Diag.recv_line]. unfold bind. rewrite emit_add. intros [= <- <-].
    split; [done|]. eexists. split; [done|]. by repeat constructor.
  - cbn [Diag.recv_line]. unfold bind at 1. rewrite emit_add.
    unfold bind at 1, lift.
    destruct (Utf8.decode raw) as [[|ch t]|e]; cbn [ret raise].
    + intros [= <- <-]. split; [done|]. eexists. split; [done|].
      by repeat constructor.
    + destruct (has_newline (acc ++ ch :: t)).
      * intros [= <- <-]. split; [done|]. eexists. split; [done|].
        by repeat constructor.
      * intros H. apply IH in H as [Ho (evs & -> & Hall)]. split; [done|].
        exists (ERecv fd (Chunk raw) :: evs). rewrite add_events_app.
        split; [done|]. by constructor.
    + intros [= <- <-]. split; [done|]. eexists. split; [done|].
      by repeat constructor.
  - cbn [Diag.recv_line]. unfold bind. rewrite emit_add. intros [= <- <-].
    split; [done|]. eexists. split; [done|]. by repeat constructor.
Qed.

Lemma diag_handle_effects (json_loads : str → res value) c w o w' :
  Diag.handle_connection json_loads c w = (o, w') →
  o ≠ Hang
  ∧ ∃ body,
      Forall (diag_body (next_fd w)) body
      ∧ w' = World (trace w ++ EAccept (next_fd w) (peer c)
                      :: body ++ [EClose (next_fd w)])
                   (S (next_fd w)) (action_server w) (goals w).
Proof.
  rewrite diag_handle_eq.
  destruct (Diag.recv_line _ _ _ _) as [o1 w1] eqn:Hr.
  apply recv_line_effects in Hr as [Ho1 (evs & -> & Hall)].
  assert (∀ tl, Forall (diag_body (next_fd w)) tl →
            ∃ body,
              Forall (diag_body (next_fd w)) body
              ∧ add_events (tl ++ [EClose (next_fd w)])
                  (add_events evs (diag_accepted c w))
                = World (trace w ++ EAccept (next_fd w) (peer c)
                           :: body ++ [EClose (next_fd w)])
                        (S (next_fd w)) (action_server w) (goals w)) as Hshape.
  { intros tl Htl.
    exists (EPrint [FStr [10%N]; FText "[CONNECTED] "; FAddr (peer c)]
              :: evs ++ tl).
    split; [constructor; [done|by apply Forall_app]|].
    unfold add_events, diag_accepted. simpl. f_equal.
    rewrite <- !app_assoc. simpl. by rewrite <- ?app_assoc. }
  destruct o1 as [data_str|e|]; [|intros [= <- <-]; split; [done|];
                                   apply (Hshape []); constructor|done].
  destruct (json_loads (strip data_str)) as [mission_data|e].
  - intros [= <- <-]. split; [done|].
    apply (Hshape [EPrint [FText "[RECEIVED MISSION]:"];
                   EPrint [FValue mission_data]]).
    by repeat constructor.
  - destruct (is_JSONDecodeError e); intros [= <- <-]; (split; [done|]).
    + apply (Hshape [EPrint [FText "[ERROR] Received non-JSON data: ";
                             FStr data_str]]).
      by repeat constructor.
    + apply (Hshape []). constructor.
Qed.

Lemma diag_body_event fd body : Forall (diag_body fd) body → Forall diag_event body.
Proof. intros H. eapply Forall_impl; [exact H|]. by intros []. Qed.

(** X12: the diagnostic server does nothing but accept, read, close and
    print: whatever arrives, the action client and the goals on record
    are as they were.  Every socket it accepted is closed when the loop
    ends, by return or by exception; while the loop has not ended, every
    accepted socket but the last one, the one that may still be handled,
    is closed. *)
Theorem diag_only_reads_and_prints (json_loads : str → res value)
    (arrivals : list Diag.timed_arrival) (w : world) (o : outcome unit)
    (w' : world) :
  Diag.serve json_loads arrivals w = (o, w') →
  goals w' = goals w
  ∧ action_server w' = action_server w
  ∧ ∃ evs, trace w' = trace w ++ evs
      ∧ Forall diag_event evs
      ∧ ∀ fd a, EAccept fd a ∈ evs →
          EClose fd ∈ evs ∨ (o = Hang ∧ S fd = next_fd w').
Proof.
  revert w. induction arrivals as [|[c| |e] arrivals IH]; intros w;
    cbn [Diag.serve].
  - intros [= <- <-]. split_and!; try done. exists [].
    rewrite app_nil_r. split_and!; try done.
    intros fd a Hin. by apply elem_of_nil in Hin.
  - destruct (Diag.handle_connection json_loads c w) as [o1 w1] eqn:Hh.
    apply diag_handle_effects in Hh as [Ho1 (body & Hbody & ->)].
    assert (Forall diag_event
              (EAccept (next_fd w) (peer c) :: body ++ [EClose (next_fd w)]))
      as Hev.
    { constructor; [done|]. apply Forall_app.
      split; [by eapply diag_body_event|by repeat constructor]. }
    assert (∀ fd a,
              EAccept fd a ∈ EAccept (next_fd w) (peer c)
                               :: body ++ [EClose (next_fd w)] →
              EClose fd ∈ EAccept (next_fd w) (peer c)
                            :: body ++ [EClose (next_fd w)]) as Hclosed.
    { intros fd a Hin. apply elem_of_cons in Hin as [[= -> ->]|Hin].
      - right. apply elem_of_app. right. by left.
      - apply elem_of_app in Hin as [Hin|Hin].
        + rewrite Forall_forall in Hbody. by apply Hbody in Hin.
        + apply list_elem_of_singleton in Hin. done. }
    destruct o1 as [[]|e|]; [| |done].
    + intros Hrun. apply IH in Hrun as (Hg & Ha & evs & Htr & Hall & Hcl).
      simpl in Hg, Ha, Htr. split_and!; try done.
      exists ((EAccept (next_fd w) (peer c) :: body ++ [EClose (next_fd w)])
                ++ evs).
      split; [by rewrite Htr, <- app_assoc|].
      split; [by apply Forall_app|].
      intros fd a Hin.
      apply elem_of_app in Hin as [Hin|Hin].
      * left. apply elem_of_app. left. eauto.
      * apply Hcl in Hin as [Hin|Hin]; [left|by right].
        apply elem_of_app. by right.
    + destruct (Diag.is_KeyboardInterrupt e).
      * unfold print. rewrite emit_add. intros [= <- <-]. simpl.
        split_and!; try done.
        exists ((EAccept (next_fd w) (peer c) :: body ++ [EClose (next_fd w)])
                  ++ [EPrint Diag.msg_stopping]).
        split; [by rewrite <- app_assoc|].
        split; [apply Forall_app; split; [done|by repeat constructor]|].
        intros fd a Hin. left. apply elem_of_app.
        apply elem_of_app in Hin as [Hin|Hin]; [left; eauto|].
        apply list_elem_of_singleton in Hin. done.
      * intros [= <- <-]. simpl. split_and!; try done.
        eexists. split; [done|]. split; [done|].
        intros fd a Hin. left. eauto.
  - apply IH.
  - destruct (Diag.is_KeyboardInterrupt e).
    + unfold print. rewrite emit_add. intros [= <- <-]. simpl.
      split_and!; try done. exists [EPrint Diag.msg_stopping].
      split_and!; try done; [by repeat constructor|].
      intros fd a Hin. apply list_elem_of_singleton in Hin. done.
    + intros [= <- <-]. split_and!; try done. exists [].
      rewrite app_nil_r. split_and!; try done.
      intros fd a Hin. by apply elem_of_nil in Hin.
Qed.

Lemma diag_only_reads_and_prints_witness :
  goals (Diag.serve Json.loads
           [Diag.TConnect two_lines; Diag.TTimeout; Diag.TConnect cut_euro]
           (initial [server_accepts])).2
  = goals (initial [server_accepts])
  ∧ action_server
      (Diag.serve Json.loads
         [Diag.TConnect two_lines; Diag.TTimeout; Diag.TConnect cut_euro]
         (initial [server_accepts])).2
    = action_server (initial [server_accepts])
  ∧ ∃ evs,
      trace (Diag.serve Json.loads
               [Diag.TConnect two_lines; Diag.TTimeout; Diag.TConnect cut_euro]
               (initial [server_accepts])).2
      = trace (initial [server_accepts]) ++ evs
      ∧ Forall diag_event evs
      ∧ ∀ fd a, EAccept fd a ∈ evs →
          EClose fd ∈ evs
          ∨ ((Diag.serve Json.loads
                [Diag.TConnect two_lines; Diag.TTimeout; Diag.TConnect cut_euro]
                (initial [server_accepts])).1 = Hang
             ∧ S fd = next_fd
                 (Diag.serve Json.loads
                    [Diag.TConnect two_lines; Diag.TTimeout;
                     Diag.TConnect cut_euro]
                    (initial [server_accepts])).2).
Proof.
  apply (diag_only_reads_and_prints Json.loads
           [Diag.TConnect two_lines; Diag.TTimeout; Diag.TConnect cut_euro]
           (initial [server_accepts])
           (Diag.serve Json.loads
              [Diag.TConnect two_lines; Diag.TTimeout; Diag.TConnect cut_euro]
              (initial [server_accepts])).1).
  vm_compute. reflexivity.
Defined.



(** X14: a timeout of [accept] has no effect at all: the loop does the
    same with and without the timeouts among what arrives. *)
Theorem diag_timeouts_transparent (json_loads : str → res value)
    (arrivals : list Diag.timed_arrival) (w : world) :
  Diag.serve json_loads arrivals w
  = Diag.serve json_loads (without_timeouts arrivals) w.
Proof.
  revert w. induction arrivals as [|[c| |e] arrivals IH]; intros w;
    cbn [Diag.serve without_timeouts List.filter is_timeout negb].
  - done.
  - destruct (Diag.handle_connection json_loads c w) as [[[]|e|] w1];
      [apply IH|done|done].
  - apply IH.
  - done.
Qed.

(** ** Its start-up *)

(** X15: in the diagnostic server a failure to bind is not fatal: the
    exception is printed, and the server goes on to listen, announces
    itself live on the address it could not bind, and serves what
    arrives. *)
Theorem diag_bind_failure_not_fatal (json_loads : str → res value)
    (e : exn) (arrivals : list Diag.timed_arrival) (w : world) :
  is_Exception e = true →
  Diag.start_server json_loads (Raises e) (Returns tt) arrivals w
  = Diag.serve json_loads arrivals
      (add_events [EPrint (Diag.msg_bind_failed e); EPrint Diag.msg_live] w).
Proof.
  intros He. unfold Diag.start_server, bind, try_except, of_call, raise, ret.
  rewrite He. unfold print. rewrite !emit_add. by rewrite add_events_app.
Qed.

Lemma diag_bind_failure_not_fatal_witness :
  Diag.start_server Json.loads (Raises address_in_use) (Returns tt)
    [Diag.TConnect two_lines] (initial [])
  = Diag.serve Json.loads [Diag.TConnect two_lines]
      (add_events [EPrint (Diag.msg_bind_failed address_in_use);
                   EPrint Diag.msg_live] (initial [])).
Proof.
  apply (diag_bind_failure_not_fatal Json.loads address_in_use
           [Diag.TConnect two_lines] (initial [])).
  reflexivity.
Defined.

(* ================================================================= *)
(** * The bridge and the chunks of a payload *)

Lemma appends_ret {A} (x : A) : appends (ret x).
Proof.
  intros n a g. exists (Ret x), [], n, a, g. intros t.
  unfold ret. by rewrite app_nil_r.
Qed.

Lemma appends_raise {A} (e : exn) : appends (@raise A e).
Proof.
  intros n a g. exists (Raise e), [], n, a, g. intros t.
  unfold raise. by rewrite app_nil_r.
Qed.

Lemma appends_lift {A} (r : res A) : appends (lift r).
Proof. destruct r; [apply appends_ret|apply appends_raise]. Qed.

Lemma appends_emit ev : appends (emit ev).
Proof. intros n a g. by exists (Ret tt), [ev], n, a, g. Qed.

Lemma appends_bind {A B} (m : M A) (k : A → M B) :
  appends m → (∀ x, appends (k x)) → appends (bind m k).
Proof.
  intros Hm Hk n a g.
  destruct (Hm n a g) as (o & evs & n1 & a1 & g1 & Hrun).
  destruct o as [x|e|].
  - destruct (Hk x n1 a1 g1) as (o2 & evs2 & n2 & a2 & g2 & Hrun2).
    exists o2, (evs ++ evs2), n2, a2, g2. intros t.
    unfold bind. rewrite Hrun, Hrun2. by rewrite app_assoc.
  - exists (Raise e), evs, n1, a1, g1. intros t. unfold bind. by rewrite Hrun.
  - exists Hang, evs, n1, a1, g1. intros t. unfold bind. by rewrite Hrun.
Qed.

Lemma appends_try_except {A} (body : M A) catches handler :
  appends body → (∀ e, appends (handler e)) →
  appends (try_except body catches handler).
Proof.
  intros Hb Hh n a g.
  destruct (Hb n a g) as (o & evs & n1 & a1 & g1 & Hrun).
  destruct o as [x|e|].
  - exists (Ret x), evs, n1, a1, g1. intros t. unfold try_except. by rewrite Hrun.
  - destruct (catches e) eqn:Hc.
    + destruct (Hh e n1 a1 g1) as (o2 & evs2 & n2 & a2 & g2 & Hrun2).
      exists o2, (evs ++ evs2), n2, a2, g2. intros t.
      unfold try_except. rewrite Hrun, Hc, Hrun2. by rewrite app_assoc.
    + exists (Raise e), evs, n1, a1, g1. intros t.
      unfold try_except. by rewrite Hrun, Hc.
  - exists Hang, evs, n1, a1, g1. intros t. unfold try_except. by rewrite Hrun.
Qed.

(** A step that leaves the trace alone and does not look at it. *)
Lemma appends_silent {A} (f : M A) :
  (∀ n a g, ∃ o n' a' g', ∀ t, f (World t n a g) = (o, World t n' a' g')) →
  appends f.
Proof.
  intros Hf n a g. destruct (Hf n a g) as (o & n' & a' & g' & Hrun).
  exists o, [], n', a', g'. intros t. by rewrite Hrun, app_nil_r.
Qed.

Lemma appends_wait_for_server : appends wait_for_server.
Proof.
  apply appends_bind; [apply appends_emit|]. intros _. apply appends_silent.
  intros n a g. destruct a as [|s rest]; simpl; [by eexists _, _, _, _|].
  destruct (on_wait_for_server s); by eexists _, _, _, _.
Qed.

Lemma appends_send_goal_async goal_msg : appends (send_goal_async goal_msg).
Proof.
  apply appends_bind; [apply appends_emit|]. intros _. apply appends_silent.
  intros n a g. destruct a as [|s rest]; simpl; [by eexists _, _, _, _|].
  destruct (on_send_goal_async s); by eexists _, _, _, _.
Qed.

Lemma appends_spin future : appends (spin_until_future_complete future).
Proof.
  apply appends_bind; [apply appends_emit|]. intros _. apply appends_silent.
  intros n a g. simpl. destruct (g !! future) as [r|]; [|by eexists _, _, _, _].
  destruct (spin_until (gr_pending r) (gr_status r)) as [[o st] pend].
  by eexists _, _, _, _.
Qed.

Lemma appends_future_result future : appends (future_result future).
Proof.
  apply appends_bind; [apply appends_emit|]. intros _. apply appends_silent.
  intros n a g. simpl.
  destruct (gr_status <$> g !! future) as [[]|]; by eexists _, _, _, _.
Qed.

Lemma appends_dispatch goal_msg : appends (dispatch goal_msg).
Proof.
  unfold dispatch, log.
  apply appends_bind; [apply appends_emit|intros _].
  apply appends_bind; [apply appends_wait_for_server|intros _].
  apply appends_bind; [apply appends_send_goal_async|intros future].
  apply appends_bind; [apply appends_spin|intros _].
  apply appends_bind; [apply appends_future_result|intros result].
  apply appends_emit.
Qed.

Lemma appends_send_mission mission : appends (send_mission mission).
Proof.
  unfold send_mission, log.
  apply appends_bind; [apply appends_lift|]. intros waypoints.
  apply appends_bind; [apply appends_lift|]. intros [].
  - apply appends_emit.
  - apply appends_bind; [apply appends_lift|]. intros g. apply appends_dispatch.
Qed.

Lemma appends_process (json_loads : str → res value) data :
  appends (process json_loads data).
Proof.
  unfold process, translate, log.
  apply appends_try_except; [|intros e; apply appends_emit].
  apply appends_bind; [apply appends_lift|]. intros mission.
  apply appends_bind; [apply appends_emit|]. intros _.
  apply appends_send_mission.
Qed.

(** X16: how a payload is cut into chunks makes no difference to the
    bridge.  Two connections from the same peer whose non-empty chunks
    concatenate to the same bytes before the peer closes are handled with
    the same outcome, the same log lines and calls on the action client
    in the same order, and leave the same goals and action client; only
    the [recv] events differ. *)
Theorem chunking_irrelevant (json_loads : str → res value)
    (c1 c2 : connection) (chunks1 chunks2 : list bytes)
    (tail1 tail2 : list recv_result) (w : world) :
  peer c1 = peer c2 →
  stream c1 = closed_stream chunks1 tail1 →
  stream c2 = closed_stream chunks2 tail2 →
  Forall (λ chunk, chunk ≠ []) chunks1 →
  Forall (λ chunk, chunk ≠ []) chunks2 →
  concat chunks1 = concat chunks2 →
  ∃ o evs n a g,
    handle_connection json_loads c1 w
    = (o, World (trace w
                 ++ [EAccept (next_fd w) (peer c1);
                     ELog INFO (msg_connection (peer c1))]
                 ++ recvs (next_fd w) chunks1 ++ [ERecv (next_fd w) (Chunk [])]
                 ++ evs) n a g)
    ∧ handle_connection json_loads c2 w
      = (o, World (trace w
                   ++ [EAccept (next_fd w) (peer c1);
                       ELog INFO (msg_connection (peer c1))]
                   ++ recvs (next_fd w) chunks2 ++ [ERecv (next_fd w) (Chunk [])]
                   ++ evs) n a g).
Proof.
  intros Hpeer Hs1 Hs2 Hne1 Hne2 Hcat.
  destruct (appends_process json_loads (concat chunks1)
              (S (next_fd w)) (action_server w) (goals w))
    as (o & evs & n & a & g & Hrun).
  assert (∀ c chunks tail,
            peer c = peer c1 →
            stream c = closed_stream chunks tail →
            Forall (λ chunk, chunk ≠ []) chunks →
            concat chunks = concat chunks1 →
            handle_connection json_loads c w
            = (match o with Hang => o | _ => o end,
               World (trace w
                      ++ [EAccept (next_fd w) (peer c1);
                          ELog INFO (msg_connection (peer c1))]
                      ++ recvs (next_fd w) chunks ++ [ERecv (next_fd w) (Chunk [])]
                      ++ evs ++ match o with Hang => [] | _ => [EClose (next_fd w)] end)
                     n a g)) as Hboth.
  { intros c chunks tail Hp Hs Hne Hc.
    rewrite handle_connection_eq, Hs, accumulated_closed by done.
    simpl. rewrite Hc. unfold accepted_world.
    rewrite Hs, recv_events_closed, Hp by done. rewrite Hrun.
    destruct o as [[]|e|]; unfold add_events; simpl; f_equal; f_equal;
      rewrite <- ?app_assoc; simpl; rewrite <- ?app_assoc; try done.
    by rewrite app_nil_r. }
  exists (match o with Hang => o | _ => o end),
         (evs ++ match o with Hang => [] | _ => [EClose (next_fd w)] end),
         n, a, g.
  split; [by apply (Hboth c1 chunks1 tail1)|].
  by apply (Hboth c2 chunks2 tail2).
Qed.

Lemma chunking_irrelevant_witness :
  ∃ o evs n a g,
    handle_connection Json.loads
      (Connection client
         (closed_stream [take 7 payload_three; drop 7 payload_three] []))
      (initial [server_accepts])
    = (o, World (trace (initial [server_accepts])
                 ++ [EAccept 0 client; ELog INFO (msg_connection client)]
                 ++ recvs 0 [take 7 payload_three; drop 7 payload_three]
                 ++ [ERecv 0 (Chunk [])] ++ evs) n a g)
    ∧ handle_connection Json.loads
        (Connection client (closed_stream [payload_three] [Chunk payload_empty]))
        (initial [server_accepts])
      = (o, World (trace (initial [server_accepts])
                   ++ [EAccept 0 client; ELog INFO (msg_connection client)]
                   ++ recvs 0 [payload_three]
                   ++ [ERecv 0 (Chunk [])] ++ evs) n a g).
Proof.
  apply (chunking_irrelevant Json.loads
           (Connection client
              (closed_stream [take 7 payload_three; drop 7 payload_three] []))
           (Connection client (closed_stream [payload_three] [Chunk payload_empty]))
           [take 7 payload_three; drop 7 payload_three] [payload_three]
           [] [Chunk payload_empty] (initial [server_accepts])).
  - reflexivity.
  - reflexivity.
  - reflexivity.
  - repeat constructor; discriminate.
  - repeat constructor; discriminate.
  - reflexivity.
Defined.

Lemma recv_all_until_eof_witness :
  recv_all 0
    ((Chunk <$> [take 7 payload_three; drop 7 payload_three])
       ++ Chunk [] :: [Chunk payload_empty; RecvError conn_reset])
    [] (initial [])
  = (Ret (concat [take 7 payload_three; drop 7 payload_three]),
     add_events
       (((λ chunk, ERecv 0 (Chunk chunk))
           <$> [take 7 payload_three; drop 7 payload_three])
          ++ [ERecv 0 (Chunk [])])
       (initial [])).
Proof.
  apply (recv_all_until_eof 0 [take 7 payload_three; drop 7 payload_three]
           [Chunk payload_empty; RecvError conn_reset] (initial [])).
  repeat constructor; discriminate.
Defined.
